(** * rds-iam-proxy: token cache, backend pool, proxy server and profile
      validation, embedded from the Go sources and checked against the
      specification.

    Layout: the first half holds the embedding (one module per Go package,
    names as in the sources); the second half holds the theorems. *)

From stdpp Require Import gmap strings list fin_maps pretty.
From Stdlib Require Import ZArith Lia.

Local Open Scope Z_scope.

(** ** Go runtime prelude: errors, results, time *)

Module Go.

(** The two sentinel error values the sources compare against with
    [errors.Is]: [io.EOF] and [net.ErrClosed]. *)
Inductive sentinel : Type :=
| io_EOF
| net_ErrClosed.

(** A Go [error] value.  [errors_New] is [errors.New(msg)]; [Wrap msg inner]
    is any error whose [Error()] is [msg] and whose [Unwrap()] is [inner]
    (what [fmt.Errorf("...: %w", inner)] or [*net.OpError] build). *)
Inductive error : Type :=
| Sentinel (s : sentinel)
| errors_New (msg : string)
| Wrap (msg : string) (inner : error).

(** [err.Error()]. *)
Definition Error (e : error) : string :=
  match e with
  | Sentinel io_EOF => "EOF"
  | Sentinel net_ErrClosed => "use of closed network connection"
  | errors_New msg => msg
  | Wrap msg _ => msg
  end.

#[global] Instance sentinel_eq_dec : EqDecision sentinel.
Proof. solve_decision. Defined.

(** [errors.Is(err, target)] for a sentinel target: walk the [Unwrap] chain. *)
Fixpoint errors_Is (e : error) (target : sentinel) : bool :=
  match e with
  | Sentinel s => bool_decide (s = target)
  | errors_New _ => false
  | Wrap _ inner => errors_Is inner target
  end.

(** [fmt.Errorf(pfx + "%w", err)]: the message is [pfx] followed by the
    message of [err], and [Unwrap] gives [err]. *)
Definition Errorf_w (pfx : string) (e : error) : error :=
  Wrap (pfx +:+ Error e) e.

(** A Go [(T, error)] return pair. *)
Inductive result (T : Type) : Type :=
| Ok (v : T)
| Err (e : error).
Arguments Ok {T} v.
Arguments Err {T} e.

(** The call returned with a nil error. *)
Definition is_Ok {T : Type} (r : result T) : Prop :=
  match r with Ok _ => True | Err _ => False end.

(** [time.Duration] is an int64 count of nanoseconds. *)
Definition minDuration : Z := - 2 ^ 63.
Definition maxDuration : Z := 2 ^ 63 - 1.
Definition is_Duration (d : Z) : Prop := minDuration <= d <= maxDuration.

(** [t.Sub(u)]: the difference of two instants, saturated to the range of
    [time.Duration].  Instants are nanoseconds on the process clock. *)
Definition Time_Sub (t u : Z) : Z :=
  Z.max minDuration (Z.min maxDuration (t - u)).

(** [t.Add(d)]. *)
Definition Time_Add (t d : Z) : Z := t + d.

(** [strconv.Itoa]. *)
Definition Itoa (n : Z) : string := pretty n.

(** [strings.HasPrefix(s, p)]. *)
Definition HasPrefix (s p : string) : bool := String.prefix p s.

(** [strings.Contains(s, substr)]. *)
Fixpoint Contains (s substr : string) : bool :=
  HasPrefix s substr ||
  match s with
  | EmptyString => false
  | String _ s' => Contains s' substr
  end.

(** [sub] occurs somewhere inside [s]. *)
Definition has_substring (s sub : string) : Prop :=
  ∃ pre post, s = pre +:+ sub +:+ post.

(** The byte [c] occurs in [s]. *)
Fixpoint has_char (c : Ascii.ascii) (s : string) : Prop :=
  match s with
  | EmptyString => False
  | String c' s' => c' = c ∨ has_char c s'
  end.


(** The separator the key functions join fields with. *)
Definition bar : Ascii.ascii := Ascii.ascii_of_nat 124.

End Go.

Import Go.

(** ** package config: the profile record and its validators *)

Module config.

Record Profile : Type := {
  Name : string;
  ListenAddr : string;
  MaxConns : Z;
  ProxyUser : string;
  ProxyPassword : string;
  RDSHost : string;
  RDSPort : Z;
  RDSRegion : string;
  RDSDBUser : string;
  AWSProfile : string;
  DefaultDB : string;
  CABundle : string
}.

Definition maxConnsHardLimit : Z := 200.

Definition MaxConnsHardLimit : Z := maxConnsHardLimit.

(** The standard-library and operating-system calls the validators make:
    [net.SplitHostPort], [net.ParseIP], [IP.IsLoopback] and [os.Stat] (of
    which only the error is looked at).  [IP] is [net.IP]. *)
Record Env (IP : Type) : Type := {
  SplitHostPort : string -> result (string * string);
  ParseIP : string -> option IP;
  IsLoopback : IP -> bool;
  Stat : string -> option error
}.
Arguments SplitHostPort {IP} _ _.
Arguments ParseIP {IP} _ _.
Arguments IsLoopback {IP} _ _.
Arguments Stat {IP} _ _.

Section WithEnv.
Context {IP : Type}.
Variable E : Env IP.

Definition isLoopbackAddr (addr : string) : bool :=
  match SplitHostPort E addr with
  | Err _ => false
  | Ok (host, _) =>
    match ParseIP E host with
    | None => false
    | Some ip => IsLoopback E ip
    end
  end.

(** [validateProfile]; [None] is the nil error. *)
Definition validateProfile (p : Profile) : option error :=
  if decide (Name p = "") then Some (errors_New "name is required")
  else if decide (ProxyUser p = "") then Some (errors_New "proxy_user is required")
  else if decide (MaxConns p < 1) then Some (errors_New "max_conns must be >= 1")
  else if decide (MaxConns p > maxConnsHardLimit) then
    Some (errors_New ("max_conns must be <= " +:+ Itoa maxConnsHardLimit))
  else if decide (RDSHost p = "") then Some (errors_New "rds_host is required")
  else if decide (RDSRegion p = "") then Some (errors_New "rds_region is required")
  else if decide (RDSDBUser p = "") then Some (errors_New "rds_db_user is required")
  else if decide (ProxyUser p = RDSDBUser p) then
    Some (errors_New "proxy_user and rds_db_user must be different")
  else if decide (CABundle p = "") then Some (errors_New "ca_bundle is required")
  else match SplitHostPort E (ListenAddr p) with
       | Err err => Some (Errorf_w "invalid listen_addr: " err)
       | Ok _ => None
       end.

(** [strconv.Quote] is not modelled: the address is placed between plain
    double-quote characters, which is what [%q] prints for an address
    without special characters. *)
Definition quote (s : string) : string :=
  String (Ascii.ascii_of_nat 34) (s +:+ String (Ascii.ascii_of_nat 34) EmptyString).

(** [Profile.ValidateRuntime]; [None] is the nil error. *)
Definition ValidateRuntime (p : Profile) (allowDevEmptyPassword : bool) : option error :=
  if bool_decide (ProxyPassword p = "") && negb allowDevEmptyPassword then
    Some (errors_New "proxy_password is empty")
  else if bool_decide (ProxyPassword p = "change-me")
          || bool_decide (ProxyPassword p = "change-me-too") then
    Some (errors_New "proxy_password must not use example default value")
  else if negb (isLoopbackAddr (ListenAddr p)) then
    Some (errors_New ("listen_addr " +:+ quote (ListenAddr p) +:+ " is not loopback"))
  else match Stat E (CABundle p) with
       | Some err => Some (Errorf_w "ca_bundle not readable: " err)
       | None => None
       end.

(** The listen address has a host that parses as an IP whose [IsLoopback]
    holds. *)
Definition host_is_loopback_ip (addr : string) : Prop :=
  ∃ host port ip,
    SplitHostPort E addr = Ok (host, port) ∧ ParseIP E host = Some ip ∧
    IsLoopback E ip = true.

End WithEnv.

(** A table-driven environment for examples, in the manner of a test fake:
    it knows the two listen addresses the package's tests use and one CA
    bundle path.  An address is four octets. *)
Definition testEnv : Env (Z * Z * Z * Z) :=
  {| SplitHostPort := λ addr,
       if decide (addr = "127.0.0.1:3307") then Ok ("127.0.0.1", "3307")
       else if decide (addr = "0.0.0.0:3307") then Ok ("0.0.0.0", "3307")
       else Err (errors_New ("address " +:+ addr +:+ ": missing port in address"));
     ParseIP := λ host,
       if decide (host = "127.0.0.1") then Some (127, 0, 0, 1)
       else if decide (host = "0.0.0.0") then Some (0, 0, 0, 0)
       else None;
     IsLoopback := λ ip, bool_decide (ip.1.1.1 = 127);
     Stat := λ path,
       if decide (path = "/tmp/ca.pem") then None
       else Some (errors_New ("stat " +:+ path +:+ ": no such file or directory")) |}.

(** *** Defaults, loading, selection and config discovery *)

Definition defaultListenAddr : string := "127.0.0.1:3307".
Definition defaultRDSPort : Z := 3306.
Definition defaultMaxConns : Z := 20.

Record Config : Type := {
  Profiles : list Profile
}.


(** [strings.Join]. *)
Fixpoint Join (elems : list string) (sep : string) : string :=
  match elems with
  | [] => ""
  | [e] => e
  | e :: rest => e +:+ sep +:+ Join rest sep
  end.

(** The [path/filepath], [os.ReadFile] and [yaml.Unmarshal] calls of the
    package.  [filepath_Join] takes the path elements. *)
Record OS : Type := {
  filepath_IsAbs : string -> bool;
  filepath_Join : list string -> string;
  filepath_Abs : string -> result string;
  filepath_Dir : string -> string;
  filepath_Clean : string -> string;
  filepath_EvalSymlinks : string -> result string;
  os_ReadFile : string -> result string;
  yaml_Unmarshal : string -> result (list Profile)
}.

Definition set_ListenAddr (v : string) (p : Profile) : Profile :=
  {| Name := Name p; ListenAddr := v; MaxConns := MaxConns p;
     ProxyUser := ProxyUser p; ProxyPassword := ProxyPassword p;
     RDSHost := RDSHost p; RDSPort := RDSPort p; RDSRegion := RDSRegion p;
     RDSDBUser := RDSDBUser p; AWSProfile := AWSProfile p;
     DefaultDB := DefaultDB p; CABundle := CABundle p |}.

Definition set_RDSPort (v : Z) (p : Profile) : Profile :=
  {| Name := Name p; ListenAddr := ListenAddr p; MaxConns := MaxConns p;
     ProxyUser := ProxyUser p; ProxyPassword := ProxyPassword p;
     RDSHost := RDSHost p; RDSPort := v; RDSRegion := RDSRegion p;
     RDSDBUser := RDSDBUser p; AWSProfile := AWSProfile p;
     DefaultDB := DefaultDB p; CABundle := CABundle p |}.

Definition set_MaxConns (v : Z) (p : Profile) : Profile :=
  {| Name := Name p; ListenAddr := ListenAddr p; MaxConns := v;
     ProxyUser := ProxyUser p; ProxyPassword := ProxyPassword p;
     RDSHost := RDSHost p; RDSPort := RDSPort p; RDSRegion := RDSRegion p;
     RDSDBUser := RDSDBUser p; AWSProfile := AWSProfile p;
     DefaultDB := DefaultDB p; CABundle := CABundle p |}.

Definition set_CABundle (v : string) (p : Profile) : Profile :=
  {| Name := Name p; ListenAddr := ListenAddr p; MaxConns := MaxConns p;
     ProxyUser := ProxyUser p; ProxyPassword := ProxyPassword p;
     RDSHost := RDSHost p; RDSPort := RDSPort p; RDSRegion := RDSRegion p;
     RDSDBUser := RDSDBUser p; AWSProfile := AWSProfile p;
     DefaultDB := DefaultDB p; CABundle := v |}.

Definition applyDefaults (p : Profile) : Profile :=
  let p := if decide (ListenAddr p = "") then set_ListenAddr defaultListenAddr p else p in
  let p := if decide (RDSPort p = 0) then set_RDSPort defaultRDSPort p else p in
  if decide (MaxConns p = 0) then set_MaxConns defaultMaxConns p else p.

(** [validateUniqueUsernames]: the loop over the profiles with the map of
    proxy users seen so far. *)
Fixpoint uniqueUsernames_loop (profiles : list Profile) (proxyUsers : gmap string string)
  : option error :=
  match profiles with
  | [] => None
  | p :: rest =>
    match proxyUsers !! ProxyUser p with
    | Some prev =>
      Some (errors_New ("proxy_user " +:+ quote (ProxyUser p) +:+
                        " is reused by profiles " +:+ quote prev +:+ " and " +:+
                        quote (Name p) +:+
                        "; use unique proxy_user values per profile"))
    | None => uniqueUsernames_loop rest (<[ProxyUser p := Name p]> proxyUsers)
    end
  end.

Definition validateUniqueUsernames (profiles : list Profile) : option error :=
  if decide (length profiles < 2)%nat then None
  else uniqueUsernames_loop profiles ∅.

(** [SelectProfile]: the profile the returned pointer refers to. *)
Definition SelectProfile (cfg : Config) (selected : string) : result Profile :=
  if decide (selected ≠ "") then
    match List.find (λ p, bool_decide (Name p = selected)) (Profiles cfg) with
    | Some p => Ok p
    | None => Err (errors_New ("profile " +:+ quote selected +:+ " not found"))
    end
  else
    match Profiles cfg with
    | [p] => Ok p
    | _ =>
      Err (errors_New
             ("multiple profiles configured; pass --profile <name>. available: "
              +:+ Join (map Name (Profiles cfg)) ", "))
    end.

Section WithOS.
Context {IP : Type}.
Variable E : Env IP.
Variable O : OS.

Definition resolveRelativePaths (p : Profile) (baseDir : string) : Profile :=
  if bool_decide (CABundle p ≠ "") && negb (filepath_IsAbs O (CABundle p)) then
    set_CABundle (filepath_Join O [baseDir; CABundle p]) p
  else p.

(** The loop of [Load] over the parsed profiles: defaults, path resolution
    and validation of each profile in turn, stopping at the first error. *)
Fixpoint Load_loop (baseDir : string) (profiles : list Profile)
  : result (list Profile) :=
  match profiles with
  | [] => Ok []
  | p :: rest =>
    let p := resolveRelativePaths (applyDefaults p) baseDir in
    match validateProfile E p with
    | Some err => Err (Errorf_w ("profile " +:+ quote (Name p) +:+ ": ") err)
    | None =>
      match Load_loop baseDir rest with
      | Err err => Err err
      | Ok rest' => Ok (p :: rest')
      end
    end
  end.

Definition Load (path : string) : result Config :=
  match os_ReadFile O path with
  | Err err => Err (Errorf_w "read config: " err)
  | Ok raw =>
    match yaml_Unmarshal O raw with
    | Err err => Err (Errorf_w "parse yaml: " err)
    | Ok profiles =>
      if decide (length profiles = 0%nat) then
        Err (errors_New "config has no profiles")
      else
        match Load_loop (filepath_Dir O path) profiles with
        | Err err => Err err
        | Ok profiles' =>
          match validateUniqueUsernames profiles' with
          | Some err => Err err
          | None => Ok {| Profiles := profiles' |}
          end
        end
    end
  end.







End WithOS.

(** A small file system for examples: paths are joined with ["/"], every
    path is clean and absolute, and only [/srv/app/config.yaml] exists. *)
Definition testOS : OS :=
  {| filepath_IsAbs := λ path, HasPrefix path "/";
     filepath_Join := λ elems, Join elems "/";
     filepath_Abs := λ path, Ok path;
     filepath_Dir := λ path,
       if decide (path = "/srv/app/bin") then "/srv/app"
       else if decide (path = "/srv/app/bin/rds-iam-proxy") then "/srv/app/bin"
       else if decide (path = "/srv/app") then "/srv"
       else if decide (path = "/etc/rds/config.yaml") then "/etc/rds"
       else "/";
     filepath_Clean := λ path, path;
     filepath_EvalSymlinks := λ path, Ok path;
     os_ReadFile := λ path,
       if decide (path = "/etc/rds/config.yaml") then Ok "profiles: ..."
       else Err (errors_New ("open " +:+ path +:+ ": no such file or directory"));
     yaml_Unmarshal := λ _,
       Ok [ {| Name := "p1"; ListenAddr := ""; MaxConns := 0;
               ProxyUser := "local_proxy_1"; ProxyPassword := "s3cret";
               RDSHost := "db.example"; RDSPort := 0; RDSRegion := "eu-west-1";
               RDSDBUser := "db_user_1"; AWSProfile := ""; DefaultDB := "";
               CABundle := "certs/ca.pem" |} ] |}.


End config.

(** ** package token: the token cache *)

Module token.

Import config.

Record CachedToken : Type := {
  Value : string;
  ExpiresAt : Z
}.

(** Options handed to the SDK-config loader. *)
Inductive LoadOption : Type :=
| WithRegion (region : string)
| WithSharedConfigProfile (name : string).

(** The process-level collaborators of the package: the clock and the two
    injected function variables.  Each is indexed by the number of calls made
    so far, so a collaborator may answer differently on every call.
    [JoinHostPort] is [net.JoinHostPort]. *)
Record Env (Provider : Type) : Type := {
  clock : nat -> Z;
  loadDefaultAWSConfig : nat -> list LoadOption -> result Provider;
  buildRDSAuthToken : nat -> string -> string -> string -> Provider -> result string;
  JoinHostPort : string -> string -> string
}.
Arguments clock {Provider} _ _.
Arguments loadDefaultAWSConfig {Provider} _ _ _.
Arguments buildRDSAuthToken {Provider} _ _ _ _ _ _.
Arguments JoinHostPort {Provider} _ _ _.

(** The [Cache] struct (the mutex is not modelled: calls are sequential)
    together with the counters of the process: how often the clock was read
    and how often each injected function was called. *)
Record State (Provider : Type) : Type := {
  entries : gmap string CachedToken;
  awsProviders : gmap string Provider;
  refreshBefore : Z;
  tokenTTL : Z;
  clockReads : nat;
  loadCalls : nat;
  buildCalls : nat
}.
Arguments entries {Provider} _.
Arguments awsProviders {Provider} _.
Arguments refreshBefore {Provider} _.
Arguments tokenTTL {Provider} _.
Arguments clockReads {Provider} _.
Arguments loadCalls {Provider} _.
Arguments buildCalls {Provider} _.

Section WithProvider.
Context {Provider : Type}.
Variable E : Env Provider.

Local Abbreviation St := (State Provider).

(** [New(refreshBefore, tokenTTL)], in a process whose counters stand at
    [reads], [loads] and [builds]. *)
Definition New (rb ttl : Z) (reads loads builds : nat) : St :=
  {| entries := ∅; awsProviders := ∅; refreshBefore := rb; tokenTTL := ttl;
     clockReads := reads; loadCalls := loads; buildCalls := builds |}.

Definition set_entries (f : gmap string CachedToken -> gmap string CachedToken) (s : St) : St :=
  {| entries := f (entries s); awsProviders := awsProviders s;
     refreshBefore := refreshBefore s; tokenTTL := tokenTTL s;
     clockReads := clockReads s; loadCalls := loadCalls s; buildCalls := buildCalls s |}.

Definition set_awsProviders (f : gmap string Provider -> gmap string Provider) (s : St) : St :=
  {| entries := entries s; awsProviders := f (awsProviders s);
     refreshBefore := refreshBefore s; tokenTTL := tokenTTL s;
     clockReads := clockReads s; loadCalls := loadCalls s; buildCalls := buildCalls s |}.

(** One more reading of the clock has been taken. *)
Definition tick (s : St) : St :=
  {| entries := entries s; awsProviders := awsProviders s;
     refreshBefore := refreshBefore s; tokenTTL := tokenTTL s;
     clockReads := S (clockReads s); loadCalls := loadCalls s; buildCalls := buildCalls s |}.

Definition count_load (s : St) : St :=
  {| entries := entries s; awsProviders := awsProviders s;
     refreshBefore := refreshBefore s; tokenTTL := tokenTTL s;
     clockReads := clockReads s; loadCalls := S (loadCalls s); buildCalls := buildCalls s |}.

Definition count_build (s : St) : St :=
  {| entries := entries s; awsProviders := awsProviders s;
     refreshBefore := refreshBefore s; tokenTTL := tokenTTL s;
     clockReads := clockReads s; loadCalls := loadCalls s; buildCalls := S (buildCalls s) |}.

(** [time.Now()]. *)
Definition time_Now (s : St) : Z * St := (clock E (clockReads s), tick s).

(** [time.Until(t)] is [t.Sub(time.Now())]. *)
Definition time_Until (t : Z) (s : St) : Z * St :=
  let '(now, s1) := time_Now s in (Time_Sub t now, s1).

Definition cacheKey (p : Profile) : string :=
  Name p +:+ "|" +:+ RDSHost p +:+ "|" +:+ Itoa (RDSPort p) +:+ "|" +:+
  RDSRegion p +:+ "|" +:+ RDSDBUser p +:+ "|" +:+ AWSProfile p.

Definition providerKey (p : Profile) : string :=
  RDSRegion p +:+ "|" +:+ AWSProfile p.

Definition getOrInitProvider (p : Profile) (s : St) : result Provider * St :=
  let key := providerKey p in
  match awsProviders s !! key with
  | Some provider => (Ok provider, s)
  | None =>
    let opts :=
      WithRegion (RDSRegion p) ::
      (if decide (AWSProfile p = "") then []
       else [WithSharedConfigProfile (AWSProfile p)]) in
    match loadDefaultAWSConfig E (loadCalls s) opts with
    | Err err => (Err (Errorf_w "load aws config: " err), count_load s)
    | Ok credentials =>
      (Ok credentials, set_awsProviders (insert key credentials) (count_load s))
    end
  end.

Definition build (p : Profile) (ttl : Z) (provider : Provider) (s : St)
  : result CachedToken * St :=
  let endpoint := JoinHostPort E (RDSHost p) (Itoa (RDSPort p)) in
  match buildRDSAuthToken E (buildCalls s) endpoint (RDSRegion p) (RDSDBUser p) provider with
  | Err err => (Err (Errorf_w "build auth token: " err), count_build s)
  | Ok token =>
    let '(now, s1) := time_Now (count_build s) in
    (Ok {| Value := token; ExpiresAt := Time_Add now ttl |}, s1)
  end.

(** The cache lookup at the head of [Get]: the stored entry when it is
    present and still outside the refresh window.  The clock is read only
    when an entry is present ([&&] short-circuits). *)
Definition lookup_fresh (key : string) (s : St) : option CachedToken * St :=
  match entries s !! key with
  | Some entry =>
    let '(remaining, s1) := time_Until (ExpiresAt entry) s in
    if bool_decide (remaining > refreshBefore s) then (Some entry, s1) else (None, s1)
  | None => (None, s)
  end.

Definition Get (p : Profile) (s : St) : result CachedToken * St :=
  let key := cacheKey p in
  match lookup_fresh key s with
  | (Some entry, s1) => (Ok entry, s1)
  | (None, s1) =>
    match getOrInitProvider p s1 with
    | (Err err, s2) => (Err err, s2)
    | (Ok provider, s2) =>
      match build p (tokenTTL s2) provider s2 with
      | (Err err, s3) => (Err err, s3)
      | (Ok fresh, s3) => (Ok fresh, set_entries (insert key fresh) s3)
      end
    end
  end.

(** A sequence of [Get] calls on one cache, one after the other. *)
Fixpoint Gets (ps : list Profile) (s : St) : list (result CachedToken) * St :=
  match ps with
  | [] => ([], s)
  | p :: ps' =>
    let '(r, s1) := Get p s in
    let '(rs, s2) := Gets ps' s1 in
    (r :: rs, s2)
  end.

(** The entry stored under [key] is outside the refresh window at the next
    reading of the clock: [ExpiresAt − now > refreshBefore]. *)
Definition is_fresh (key : string) (s : St) : Prop :=
  ∃ e, entries s !! key = Some e ∧
       Time_Sub (ExpiresAt e) (clock E (clockReads s)) > refreshBefore s.

(** The states one cache goes through in a process: it starts as [New],
    [Get] is called on it, and the clock is read by other code in between. *)
Inductive reachable (rb ttl : Z) : St -> Prop :=
| reach_New reads loads builds : reachable rb ttl (New rb ttl reads loads builds)
| reach_Get p s : reachable rb ttl s -> reachable rb ttl (Get p s).2
| reach_tick s : reachable rb ttl s -> reachable rb ttl (tick s).

(** The process clock never runs backwards (Go compares monotonic readings). *)
Definition monotone_clock : Prop :=
  ∀ i j : nat, (i <= j)%nat -> clock E i <= clock E j.

(** Every stored token was stamped [tokenTTL] after an earlier clock reading. *)
Definition minted_before (s : St) : Prop :=
  ∀ k e, entries s !! k = Some e ->
         ∃ n, (n < clockReads s)%nat ∧ ExpiresAt e = clock E n + tokenTTL s.

End WithProvider.

(** A deterministic environment in the style of the package's tests: the
    clock advances one microsecond per reading, the loader always succeeds
    and the builder numbers its tokens. *)
Definition testEnv : Env unit :=
  {| clock := λ n, 1000 * Z.of_nat n;
     loadDefaultAWSConfig := λ _ _, Ok tt;
     buildRDSAuthToken := λ call _ _ _ _, Ok ("token-call-" +:+ pretty (S call));
     JoinHostPort := λ host port, host +:+ ":" +:+ port |}.

Definition testProfile : Profile :=
  {| Name := "p1"; ListenAddr := "127.0.0.1:3307"; MaxConns := 20;
     ProxyUser := "local_proxy_1"; ProxyPassword := "s3cret";
     RDSHost := "db.example"; RDSPort := 3306; RDSRegion := "eu-west-1";
     RDSDBUser := "db_user_1"; AWSProfile := "dev"; DefaultDB := "";
     CABundle := "/tmp/ca.pem" |}.

Definition minute : Z := 60 * 1000000000.

(** Two profiles that differ in name and backend host, yet concatenate to
    the same cache key. *)
Definition collidingA : Profile :=
  {| Name := "a|b"; ListenAddr := "127.0.0.1:3307"; MaxConns := 20;
     ProxyUser := "local_proxy_1"; ProxyPassword := "s3cret";
     RDSHost := "c"; RDSPort := 3306; RDSRegion := "eu-west-1";
     RDSDBUser := "db_user_1"; AWSProfile := "dev"; DefaultDB := "";
     CABundle := "/tmp/ca.pem" |}.

Definition collidingB : Profile :=
  {| Name := "a"; ListenAddr := "127.0.0.1:3307"; MaxConns := 20;
     ProxyUser := "local_proxy_1"; ProxyPassword := "s3cret";
     RDSHost := "b|c"; RDSPort := 3306; RDSRegion := "eu-west-1";
     RDSDBUser := "db_user_1"; AWSProfile := "dev"; DefaultDB := "";
     CABundle := "/tmp/ca.pem" |}.

(** The options [getOrInitProvider] hands to the loader for a profile. *)
Definition loadOptions (p : Profile) : list LoadOption :=
  WithRegion (RDSRegion p) ::
  (if decide (AWSProfile p = "") then [] else [WithSharedConfigProfile (AWSProfile p)]).

(** The test environment with a loader that always fails. *)
Definition failingLoaderEnv : Env unit :=
  {| clock := clock testEnv;
     loadDefaultAWSConfig := λ _ _, Err (errors_New "no credentials");
     buildRDSAuthToken := buildRDSAuthToken testEnv;
     JoinHostPort := JoinHostPort testEnv |}.

(** The test environment with a builder that always fails. *)
Definition failingBuilderEnv : Env unit :=
  {| clock := clock testEnv;
     loadDefaultAWSConfig := loadDefaultAWSConfig testEnv;
     buildRDSAuthToken := λ _ _ _ _ _, Err (errors_New "signing failed");
     JoinHostPort := JoinHostPort testEnv |}.

End token.

(** ** package proxy: backend pool *)

Module proxy.

(** Go's [int] is 64 bits wide here; [x++] wraps around. *)
Definition wrap_int (z : Z) : Z := (z + 2 ^ 63) mod 2 ^ 64 - 2 ^ 63.

Definition maxInt : Z := 2 ^ 63 - 1.

(** [slog] levels and records. *)
Inductive Level : Type := LevelDebug | LevelInfo | LevelWarn | LevelError.

#[global] Instance Level_eq_dec : EqDecision Level.
Proof. solve_decision. Defined.

Record LogRecord : Type := {
  level : Level;
  message : string;
  attrs : list (string * string)
}.

(** A [*client.Conn]: its socket, and what [Ping()] answers on it ([None]
    is the nil error). *)
Record ClientConn : Type := {
  sock : nat;
  Ping : option error
}.

Record PooledConn : Type := {
  conn : ClientConn;
  createdAt : Z
}.

(** The fields of [BackendPool] that [Borrow] reads.  The channel [conns] is
    shared with the refill goroutines, so what [Borrow] receives from it is
    given by the [Select] outcomes below. *)
Record BackendPool : Type := {
  maxLife : Z;
  factory : unit -> result ClientConn
}.

(** What one [Borrow] call does to the outside: the records it logs, the
    sockets it closes and the refill goroutines it starts. *)
Record Effects : Type := {
  logs : list LogRecord;
  closed : list nat;
  refills : nat
}.

Definition no_effects : Effects := {| logs := []; closed := []; refills := 0 |}.

Definition log (l : Level) (msg : string) (kv : list (string * string)) (w : Effects) : Effects :=
  {| logs := logs w ++ [{| level := l; message := msg; attrs := kv |}];
     closed := closed w; refills := refills w |}.

Definition Close (c : ClientConn) (w : Effects) : Effects :=
  {| logs := logs w; closed := closed w ++ [sock c]; refills := refills w |}.

(** [go p.fillOne()]. *)
Definition go_fillOne (w : Effects) : Effects :=
  {| logs := logs w; closed := closed w; refills := S (refills w) |}.

(** The part of [msg] before the first newline. *)
Fixpoint first_line (msg : string) : string :=
  match msg with
  | EmptyString => EmptyString
  | String c rest =>
    if Ascii.eqb c (Ascii.ascii_of_nat 10) then EmptyString
    else String c (first_line rest)
  end.

Fixpoint trim_left (s : string) : string :=
  match s with
  | EmptyString => EmptyString
  | String c rest => if Ascii.is_space c then trim_left rest else s
  end.

(** [strings.TrimSpace], for the ASCII white space characters. *)
Definition TrimSpace (s : string) : string :=
  String.rev (trim_left (String.rev (trim_left s))).

Definition compactErr (err : option error) : string :=
  match err with
  | None => ""
  | Some e => TrimSpace (first_line (Error e))
  end.

(** The outcome of one pass through the [select] in [Borrow]: the context
    is done (with [ctx.Err()]), an item (possibly nil) was received from
    [p.conns] (with the clock reading [time.Since] then takes), or nothing
    was ready. *)
Inductive Select : Type :=
| ctx_Done (err : error)
| recv (pooled : option PooledConn) (now : Z)
| default.

Definition summary (staleDiscarded : Z) (lastStaleReason : string) (w : Effects) : Effects :=
  if decide (staleDiscarded > 0) then
    log LevelInfo "refreshed stale pooled connections"
      [("discarded", Itoa staleDiscarded); ("last_reason", lastStaleReason)] w
  else w.

(** The loop of [Borrow], run against the outcomes its [select] meets.
    [None]: the call has not returned within these outcomes. *)
Fixpoint Borrow_loop (p : BackendPool) (outcomes : list Select)
    (staleDiscarded : Z) (lastStaleReason : string) (w : Effects)
  : option (result ClientConn * Effects) :=
  match outcomes with
  | [] => None
  | ctx_Done err :: _ =>
    Some (Err err, summary staleDiscarded lastStaleReason w)
  | recv None _ :: _ =>
    Some (factory p tt, summary staleDiscarded lastStaleReason w)
  | recv (Some pooled) now :: rest =>
    if decide (Time_Sub now (createdAt pooled) > maxLife p) then
      Borrow_loop p rest staleDiscarded lastStaleReason
        (go_fillOne (Close (conn pooled) w))
    else
      match Ping (conn pooled) with
      | Some err =>
        let reason := compactErr (Some err) in
        Borrow_loop p rest (wrap_int (staleDiscarded + 1)) reason
          (go_fillOne (Close (conn pooled)
             (log LevelDebug "discarding stale pooled connection"
                [("reason", reason)] w)))
      | None =>
        Some (Ok (conn pooled), summary staleDiscarded lastStaleReason (go_fillOne w))
      end
  | default :: _ =>
    Some (factory p tt, summary staleDiscarded lastStaleReason w)
  end.

Definition Borrow (p : BackendPool) (outcomes : list Select)
  : option (result ClientConn * Effects) :=
  Borrow_loop p outcomes 0 "" no_effects.

(** An info-level "refreshed stale pooled connections" record. *)
Definition is_summary (r : LogRecord) : bool :=
  bool_decide (level r = LevelInfo) &&
  bool_decide (message r = "refreshed stale pooled connections").

Definition summaries (w : Effects) : nat := length (List.filter is_summary (logs w)).

(** The two ways a pooled session is stale: older than the maximum age, or
    (within age) failing the liveness check. *)
Definition over_age (p : BackendPool) (o : Select) : bool :=
  match o with
  | recv (Some pooled) now => bool_decide (Time_Sub now (createdAt pooled) > maxLife p)
  | _ => false
  end.

Definition fails_liveness (p : BackendPool) (o : Select) : bool :=
  match o with
  | recv (Some pooled) now =>
    negb (over_age p o) && bool_decide (Ping (conn pooled) ≠ None)
  | _ => false
  end.

Definition stale (p : BackendPool) (o : Select) : bool :=
  over_age p o || fails_liveness p o.

(** The outcomes a call examines: the stale sessions it discards, up to and
    including the first outcome that makes it return. *)
Fixpoint examined (p : BackendPool) (outcomes : list Select) : list Select :=
  match outcomes with
  | [] => []
  | o :: rest => if stale p o then o :: examined p rest else [o]
  end.

(** The call returns within the outcomes: one of them is not a discard. *)
Definition returns_within (p : BackendPool) (outcomes : list Select) : Prop :=
  Exists (λ o, stale p o = false) outcomes.

(** A pool with a 10 ms maximum age whose only pooled session is an hour
    old: the call discards it and falls through to the factory. *)
Definition agedPool : BackendPool :=
  {| maxLife := 10 * 1000000;
     factory := λ _, Ok {| sock := 7; Ping := None |} |}.

Definition agedOutcomes : list Select :=
  [recv (Some {| conn := {| sock := 3; Ping := None |}; createdAt := 0 |})
        (3600 * 1000000000);
   default].

(** A pool with a one-minute maximum age whose only pooled session is young
    but broken, as in the package's single-summary test. *)
Definition brokenPool : BackendPool :=
  {| maxLife := 60 * 1000000000;
     factory := λ _, Ok {| sock := 7; Ping := None |} |}.

Definition brokenOutcomes : list Select :=
  [recv (Some {| conn := {| sock := 3;
                            Ping := Some (errors_New "io: read/write on closed pipe") |};
                 createdAt := 1000 |})
        2000;
   default].

(** *** The proxy server *)

Definition isUseOfClosedConn (err : option error) : bool :=
  match err with
  | None => false
  | Some e => Contains (Error e) "use of closed network connection"
  end.

Definition isConnCloseErr (err : option error) : bool :=
  match err with
  | None => false
  | Some e =>
    if errors_Is e net_ErrClosed || errors_Is e io_EOF then true
    else
      Contains (Error e) "connection reset by peer" ||
      Contains (Error e) "broken pipe" ||
      Contains (Error e) "read/write on closed pipe" ||
      isUseOfClosedConn err
  end.

(** What one [io.Copy] goroutine of [pipe] sends on [resCh]. *)
Record copyResult : Type := {
  n : Z;
  err : option error
}.

(** The two copy directions: [Upstream] is [io.Copy(backend, client)],
    client to backend; [Downstream] is [io.Copy(client, backend)]. *)
Inductive Direction : Type := Upstream | Downstream.

(** One run of the two copy goroutines: what each direction ends with, and
    which of them sends its result first. *)
Record PipeRun : Type := {
  finishes_first : Direction;
  upstream : copyResult;
  downstream : copyResult
}.

Inductive PipeEvent : Type :=
| Received (d : Direction)
| ClosedClient
| ClosedBackend.

(** [Proxy.pipe]: the events in program order, and the three results. *)
Definition pipe (run : PipeRun) : list PipeEvent * (Z * Z * option error) :=
  let '(first, second, d1, d2) :=
    match finishes_first run with
    | Upstream => (upstream run, downstream run, Upstream, Downstream)
    | Downstream => (downstream run, upstream run, Downstream, Upstream)
    end in
  let events := [Received d1; ClosedClient; ClosedBackend; Received d2] in
  let up := n first in
  let down := n second in
  if bool_decide (err first ≠ None) && negb (isConnCloseErr (err first)) then
    (events, (up, down, err first))
  else if bool_decide (err second ≠ None) && negb (isConnCloseErr (err second)) then
    (events, (up, down, err second))
  else (events, (up, down, None)).

(** The backend closes its side first after sending 5 bytes; the client had
    sent 3 bytes, and its copy ends on the closed socket. *)
Definition backendClosesFirst : PipeRun :=
  {| finishes_first := Downstream;
     upstream := {| n := 3; err := Some (Sentinel net_ErrClosed) |};
     downstream := {| n := 5; err := None |} |}.

(** A tracked session; a [net.Conn] is its socket number, [None] is nil. *)
Record trackedConn : Type := {
  client : option nat;
  backend : option nat;
  startedAt : Z
}.

(** The fields of [Proxy] the operations below read and write; [sem] is
    [len(p.sem)], the capacity of the channel being [maxConns]. *)
Record Proxy : Type := {
  maxConns : Z;
  sem : nat;
  nextConnID : N;
  active : gmap N trackedConn
}.

Definition New (maxConns : Z) : Proxy :=
  let maxConns := if decide (maxConns <= 0) then 200 else maxConns in
  {| maxConns := maxConns; sem := 0; nextConnID := 0%N; active := ∅ |}.

Definition set_active (f : gmap N trackedConn -> gmap N trackedConn) (p : Proxy) : Proxy :=
  {| maxConns := maxConns p; sem := sem p; nextConnID := nextConnID p;
     active := f (active p) |}.

Definition trackClient (connID : N) (client : option nat) (startedAt : Z) (p : Proxy) : Proxy :=
  set_active (insert connID {| client := client; backend := None; startedAt := startedAt |}) p.

Definition trackBackend (connID : N) (backend : option nat) (p : Proxy) : Proxy :=
  match active p !! connID with
  | Some tc =>
    set_active (insert connID {| client := client tc; backend := backend;
                                 startedAt := startedAt tc |}) p
  | None => p
  end.

Definition untrack (connID : N) (p : Proxy) : Proxy :=
  set_active (delete connID) p.

(** The session maps a running proxy builds by clock reading [now]:
    [handleConn] tracks the accepted connection with the start time it has
    just read, attaches the backend, and untracks on exit; the clock moves
    on in between. *)
Inductive tracking : Z -> Proxy -> Prop :=
| tracking_New now maxConns : tracking now (New maxConns)
| tracking_client now p connID c startedAt :
    tracking now p -> startedAt <= now ->
    tracking now (trackClient connID (Some c) startedAt p)
| tracking_backend now p connID b :
    tracking now p -> tracking now (trackBackend connID b p)
| tracking_untrack now p connID :
    tracking now p -> tracking now (untrack connID p)
| tracking_later now now' p :
    tracking now p -> now <= now' -> tracking now' p.

(** Go ranges over a map in an unspecified order: [order] is the sequence of
    values one [range p.active] yields, some permutation of the map. *)
Definition ranges_over (p : Proxy) (order : list trackedConn) : Prop :=
  order ≡ₚ (map_to_list (active p)).*2.

(** [Proxy.activeSummary], reading [now] from the clock. *)
Definition activeSummary (p : Proxy) (now : Z) (order : list trackedConn) : Z * Z :=
  let count := Z.of_nat (size (active p)) in
  let oldestAge :=
    fold_left (λ oldestAge tc,
                 let age := Time_Sub now (startedAt tc) in
                 if decide (age > oldestAge) then age else oldestAge)
              order 0 in
  (count, oldestAge).

(** [Proxy.forceCloseActive]: the count, and the sockets closed in order. *)
Definition forceCloseActive (p : Proxy) (order : list trackedConn) : Z * list nat :=
  let pairs := map (λ tc, (client tc, backend tc)) order in
  fold_left (λ '(closed, sockets) item,
               let '(closed, sockets) :=
                 match item.1 with
                 | Some c => (closed + 1, sockets ++ [c])
                 | None => (closed, sockets)
                 end in
               match item.2 with
               | Some b => (closed + 1, sockets ++ [b])
               | None => (closed, sockets)
               end)
            pairs (0, []).

(** The tracked sessions, and how many of them have (no) backend attached. *)
Definition sessions (p : Proxy) : list trackedConn := (map_to_list (active p)).*2.

Definition with_backend (p : Proxy) : nat :=
  length (filter (λ tc, is_Some (backend tc)) (sessions p)).

Definition without_backend (p : Proxy) : nat :=
  length (filter (λ tc, ¬ is_Some (backend tc)) (sessions p)).

(** The non-nil sockets of a sequence of sessions, client before backend. *)
Definition open_sockets (order : list trackedConn) : list nat :=
  flat_map (λ tc, option_list (client tc) ++ option_list (backend tc)) order.

(** The sessions of the package's force-close test extended by one that has
    no backend yet. *)
Definition twoSessions : Proxy :=
  trackClient 43 (Some 12%nat) 3000
    (trackBackend 42 (Some 11%nat) (trackClient 42 (Some 10%nat) 1000 (New 20))).

(** *** [Proxy.Run]: the accept loop and its workers

    The accept loop and the worker goroutines run concurrently; [Run] is
    embedded as a labelled step relation over the interleavings.  Clients
    are numbered in the order [Accept] returns them. *)

(** Where the accept loop stands: in [Accept]; in the [select] that sends
    on [p.sem] for client [k]; between that send and the [go] statement;
    after the loop; returned. *)
Inductive MainPC : Type :=
| Accepting
| AcquiringSlot (k : nat)
| Dispatching (k : nat)
| Draining
| Returned.

#[global] Instance MainPC_eq_dec : EqDecision MainPC.
Proof. solve_decision. Defined.

(** Where a worker goroutine stands: inside [handleConn], or past it (by
    return or by panic) with its deferred calls still to run. *)
Inductive WorkerPC : Type :=
| Handling
| TearingDown (panicked : bool).

Record Worker : Type := {
  connID : N;
  at_pc : WorkerPC
}.

Record RunState : Type := {
  proxy_of : Proxy;
  main : MainPC;
  workers : gmap nat Worker;
  accepted : nat;
  crashed : bool
}.

Inductive Event : Type :=
| Accepted (k : nat)
| AcceptFailed (fatal : bool)
| SlotAcquired (k : nat)
| Cancelled (k : nat)
| WorkerDispatched (k : nat) (id : N)
| HandleConnEnded (k : nat) (panicked : bool)
| SlotReleased (k : nat)
| ShutDown.

Definition set_sem (f : nat -> nat) (p : Proxy) : Proxy :=
  {| maxConns := maxConns p; sem := f (sem p); nextConnID := nextConnID p;
     active := active p |}.

(** [p.nextConnID.Add(1)] on an [atomic.Uint64]. *)
Definition nextConnID_Add1 (p : Proxy) : Proxy :=
  {| maxConns := maxConns p; sem := sem p;
     nextConnID := ((nextConnID p + 1) mod 2 ^ 64)%N; active := active p |}.

Definition Run_init (configured : Z) : RunState :=
  {| proxy_of := New configured; main := Accepting; workers := ∅;
     accepted := 0; crashed := false |}.

Inductive Run_step : RunState -> Event -> RunState -> Prop :=
| step_accept s :
    crashed s = false -> main s = Accepting ->
    Run_step s (Accepted (accepted s))
      {| proxy_of := proxy_of s; main := AcquiringSlot (accepted s);
         workers := workers s; accepted := S (accepted s); crashed := false |}
| step_accept_failed s fatal :
    crashed s = false -> main s = Accepting ->
    Run_step s (AcceptFailed fatal)
      {| proxy_of := proxy_of s; main := if fatal then Draining else Accepting;
         workers := workers s; accepted := accepted s; crashed := false |}
| step_acquire s k :
    crashed s = false -> main s = AcquiringSlot k ->
    Z.of_nat (sem (proxy_of s)) < maxConns (proxy_of s) ->
    Run_step s (SlotAcquired k)
      {| proxy_of := set_sem S (proxy_of s); main := Dispatching k;
         workers := workers s; accepted := accepted s; crashed := false |}
| step_cancelled s k :
    crashed s = false -> main s = AcquiringSlot k ->
    Run_step s (Cancelled k)
      {| proxy_of := proxy_of s; main := Returned;
         workers := workers s; accepted := accepted s; crashed := false |}
| step_dispatch s k :
    crashed s = false -> main s = Dispatching k ->
    Run_step s (WorkerDispatched k (nextConnID (nextConnID_Add1 (proxy_of s))))
      {| proxy_of := nextConnID_Add1 (proxy_of s); main := Accepting;
         workers := <[k := {| connID := nextConnID (nextConnID_Add1 (proxy_of s));
                              at_pc := Handling |}]> (workers s);
         accepted := accepted s; crashed := false |}
| step_handleConn_ends s k id panicked :
    crashed s = false ->
    workers s !! k = Some {| connID := id; at_pc := Handling |} ->
    Run_step s (HandleConnEnded k panicked)
      {| proxy_of := proxy_of s; main := main s;
         workers := <[k := {| connID := id; at_pc := TearingDown panicked |}]> (workers s);
         accepted := accepted s; crashed := false |}
| step_release s k id panicked :
    crashed s = false ->
    workers s !! k = Some {| connID := id; at_pc := TearingDown panicked |} ->
    (0 < sem (proxy_of s))%nat ->
    Run_step s (SlotReleased k)
      {| proxy_of := set_sem Nat.pred (proxy_of s); main := main s;
         workers := delete k (workers s);
         accepted := accepted s; crashed := panicked |}
| step_shutdown s :
    crashed s = false -> main s = Draining ->
    Run_step s ShutDown
      {| proxy_of := proxy_of s; main := Returned;
         workers := workers s; accepted := accepted s; crashed := false |}.

(** The executions of [New(..., maxConns).Run]: the events so far and the
    state reached. *)
Inductive Run_trace (configured : Z) : list Event -> RunState -> Prop :=
| trace_init : Run_trace configured [] (Run_init configured)
| trace_step tr s e s' :
    Run_trace configured tr s -> Run_step s e s' ->
    Run_trace configured (tr ++ [e]) s'.

Definition count (f : Event -> bool) (tr : list Event) : nat :=
  length (List.filter f tr).

Definition acquires (k : nat) (e : Event) : bool :=
  match e with SlotAcquired k' => bool_decide (k' = k) | _ => false end.

Definition dispatches (k : nat) (e : Event) : bool :=
  match e with WorkerDispatched k' _ => bool_decide (k' = k) | _ => false end.

Definition ends (k : nat) (e : Event) : bool :=
  match e with HandleConnEnded k' _ => bool_decide (k' = k) | _ => false end.

Definition releases (k : nat) (e : Event) : bool :=
  match e with SlotReleased k' => bool_decide (k' = k) | _ => false end.

Definition any_acquire (e : Event) : bool :=
  match e with SlotAcquired _ => true | _ => false end.

Definition any_release (e : Event) : bool :=
  match e with SlotReleased _ => true | _ => false end.

(** How often client [k] has had a slot acquired, been dispatched, seen its
    [handleConn] end, and had its slot released. *)
Definition tally (tr : list Event) (k : nat) : nat * nat * nat * nat :=
  (count (acquires k) tr, count (dispatches k) tr,
   count (ends k) tr, count (releases k) tr).

(** The bookkeeping that holds along every execution. *)
Definition Run_inv (configured : Z) (tr : list Event) (s : RunState) : Prop :=
  maxConns (proxy_of s) = maxConns (New configured) ∧
  sem (proxy_of s) =
    (size (workers s) + match main s with Dispatching _ => 1 | _ => 0 end)%nat ∧
  (sem (proxy_of s) + count any_release tr = count any_acquire tr)%nat ∧
  (∀ k, main s = AcquiringSlot k ∨ main s = Dispatching k -> S k = accepted s) ∧
  ∀ k,
    match workers s !! k with
    | Some w =>
      (k < accepted s)%nat ∧ main s ≠ AcquiringSlot k ∧ main s ≠ Dispatching k ∧
      tally tr k = (1, 1, match at_pc w with Handling => 0 | TearingDown _ => 1 end, 0)%nat
    | None =>
      if decide (main s = AcquiringSlot k) then tally tr k = (0, 0, 0, 0)%nat
      else if decide (main s = Dispatching k) then tally tr k = (1, 0, 0, 0)%nat
      else if decide (accepted s <= k)%nat then tally tr k = (0, 0, 0, 0)%nat
      else tally tr k = (1, 1, 1, 1)%nat ∨ tally tr k = (0, 0, 0, 0)%nat
    end.

(** *** The pool's queue: construction, refill and close *)

(** The state of a [BackendPool] that [fillOne] and [Close] work on: the
    [closed] flag, the buffered channel [conns] (its contents, oldest first,
    and its capacity) and the two durations. *)
Record PoolState : Type := {
  is_closed : bool;
  refill_cancelled : bool;
  queue : list PooledConn;
  cap : nat;
  pool_maxLife : Z;
  refillTimeout : Z
}.

Definition second : Z := 1000000000.

Definition NewBackendPool (size : Z) (maxLife refillTimeout : Z) : PoolState :=
  let size := if decide (size < 1) then 1 else size in
  let refillTimeout := if decide (refillTimeout <= 0) then 8 * second else refillTimeout in
  {| is_closed := false; refill_cancelled := false; queue := [];
     cap := Z.to_nat size; pool_maxLife := maxLife; refillTimeout := refillTimeout |}.

(** [Start] launches one [fillOne] goroutine per slot of the channel. *)
Definition Start (st : PoolState) : nat := cap st.

Definition set_queue (q : list PooledConn) (st : PoolState) : PoolState :=
  {| is_closed := is_closed st; refill_cancelled := refill_cancelled st;
     queue := q; cap := cap st; pool_maxLife := pool_maxLife st;
     refillTimeout := refillTimeout st |}.

(** The part of [fillOne] after the [closed] check: the factory has
    answered [made] at clock reading [now]; the new session is sent on the
    channel if there is room and closed otherwise. *)
Definition fillOne_finish (made : result ClientConn) (now : Z) (st : PoolState)
    (w : Effects) : PoolState * Effects :=
  match made with
  | Err err => (st, log LevelWarn "pool prewarm failed" [("reason", compactErr (Some err))] w)
  | Ok c =>
    let item := {| conn := c; createdAt := now |} in
    if decide (length (queue st) < cap st)%nat then
      (set_queue (queue st ++ [item]) st, w)
    else (st, Close c w)
  end.

(** [fillOne], run without interruption; the last component counts the
    calls to the factory. *)
Definition fillOne (factory : unit -> result ClientConn) (now : Z) (st : PoolState)
    (w : Effects) : PoolState * Effects * nat :=
  if is_closed st then (st, w, 0%nat)
  else let '(st', w') := fillOne_finish (factory tt) now st w in (st', w', 1%nat).

(** [BackendPool.Close]. *)
Definition Close_pool (st : PoolState) (w : Effects) : PoolState * Effects :=
  if is_closed st then (st, w)
  else
    ({| is_closed := true; refill_cancelled := true; queue := [];
        cap := cap st; pool_maxLife := pool_maxLife st;
        refillTimeout := refillTimeout st |},
     fold_left (λ w c, Close (conn c) w) (queue st) w).

(** A run of refill tasks, one after the other, each with the factory's
    answer and the clock reading it meets. *)
Fixpoint fill_all (made : list (result ClientConn * Z)) (st : PoolState) (w : Effects)
  : PoolState * Effects :=
  match made with
  | [] => (st, w)
  | (m, now) :: rest =>
    let '(st', w', _) := fillOne (λ _, m) now st w in fill_all rest st' w'
  end.

(** The sessions the factory handed to a run of refill tasks. *)
Definition created (made : list (result ClientConn * Z)) : list nat :=
  flat_map (λ m, match m.1 with Ok c => [sock c] | Err _ => [] end) made.

(** *** What [Borrow] discards and what makes it return *)

(** The sockets of the stale sessions at the head of the outcomes. *)
Fixpoint discarded (p : BackendPool) (outcomes : list Select) : list nat :=
  match outcomes with
  | [] => []
  | o :: rest =>
    if stale p o then
      match o with
      | recv (Some pooled) _ => sock (conn pooled) :: discarded p rest
      | _ => discarded p rest
      end
    else []
  end.

(** The first outcome that is not a stale session. *)
Fixpoint deciding (p : BackendPool) (outcomes : list Select) : option Select :=
  match outcomes with
  | [] => None
  | o :: rest => if stale p o then deciding p rest else Some o
  end.

(** *** The error packet *)

Definition bytes_of_string (s : string) : list Z :=
  map (λ c, Z.of_N (Ascii.N_of_ascii c)) (String.list_ascii_of_string s).

(** [writeErrPacket]: the bytes handed to [conn.WritePacket].  [code] is a
    [uint16]; [ERR_HEADER] is the library's [mysql.ERR_HEADER]. *)
Definition writeErrPacket (ERR_HEADER : Z) (code : Z) (msg : string) : list Z :=
  let msg := if decide (msg = "") then "backend unavailable" else msg in
  [0; 0; 0; 0] ++ [ERR_HEADER] ++ [code mod 256; (code / 256) mod 256] ++
  [35] ++ bytes_of_string "HY000" ++ bytes_of_string msg.

(** *** [handleConn] *)





(** *** The backend factory *)

(** One call of [client.ConnectWithContext] as [NewConn] makes it. *)
Record Dial : Type := {
  dial_addr : string;
  dial_user : string;
  dial_password : string;
  dial_db : string
}.

(** [BackendFactory.NewConn]: the token comes from the cache, then one
    connection attempt is made, whose outcome is [connect]. *)
Definition NewConn {Provider : Type} (E : token.Env Provider)
    (connect : Dial -> result ClientConn) (profile : config.Profile)
    (s : token.State Provider)
  : result ClientConn * token.State Provider * list Dial :=
  match token.Get E profile s with
  | (Err err, s1) => (Err err, s1, [])
  | (Ok ct, s1) =>
    let addr := token.JoinHostPort E (config.RDSHost profile)
                  (Itoa (config.RDSPort profile)) in
    let d := {| dial_addr := addr; dial_user := config.RDSDBUser profile;
                dial_password := token.Value ct;
                dial_db := config.DefaultDB profile |} in
    match connect d with
    | Err err => (Err (Errorf_w "connect backend: " err), s1, [d])
    | Ok c => (Ok c, s1, [d])
    end
  end.

(** The sockets of the sessions waiting in the pool. *)
Definition queued (st : PoolState) : list nat := map (λ c, sock (conn c)) (queue st).

(** Three factory answers for a pool of size two: two sessions, then a
    third one that finds the channel full. *)
Definition threeFills : list (result ClientConn * Z) :=
  [(Ok {| sock := 21; Ping := None |}, 100);
   (Ok {| sock := 22; Ping := None |}, 200);
   (Ok {| sock := 23; Ping := None |}, 300)].

End proxy.

(** ** package main: profile selection and start-up checks *)

Module cmd.

Import config.

(** [validateUniqueListenAddrs]: the loop with the map of addresses seen. *)
Fixpoint uniqueListenAddrs_loop (profiles : list Profile) (seen : gmap string string)
  : option error :=
  match profiles with
  | [] => None
  | p :: rest =>
    match seen !! ListenAddr p with
    | Some prev =>
      Some (errors_New ("listen_addr " +:+ quote (ListenAddr p) +:+
                        " is reused by profiles " +:+ quote prev +:+ " and " +:+
                        quote (Name p)))
    | None => uniqueListenAddrs_loop rest (<[ListenAddr p := Name p]> seen)
    end
  end.

Definition validateUniqueListenAddrs (profiles : list Profile) : option error :=
  uniqueListenAddrs_loop profiles ∅.

(** The name index [selectByNames] builds first: a later profile replaces an
    earlier one of the same name. *)
Definition index_by_name (profiles : list Profile) : gmap string Profile :=
  fold_left (λ index p, <[Name p := p]> index) profiles ∅.

Fixpoint selectByNames_loop (index : gmap string Profile) (names : list string)
    (seen : gset string) (out : list Profile) : result (list Profile) :=
  match names with
  | [] => Ok out
  | name :: rest =>
    if decide (name ∈ seen) then selectByNames_loop index rest seen out
    else
      match index !! name with
      | None => Err (errors_New ("profile " +:+ quote name +:+ " not found"))
      | Some p => selectByNames_loop index rest ({[name]} ∪ seen) (out ++ [p])
      end
  end.

Definition selectByNames (cfg : Config) (names : list string) : result (list Profile) :=
  selectByNames_loop (index_by_name (Profiles cfg)) names ∅ [].

(** The capacity [main] hands to [proxy.New]: the [--max-conns] flag when it
    is positive, else the profile's own value. *)
Definition resolvedMaxConns (maxConns : Z) (current : Profile) : Z :=
  if decide (maxConns > 0) then maxConns else MaxConns current.

(** [main] refuses to start when the flag exceeds the hard limit. *)
Definition maxConns_flag_accepted (maxConns : Z) : bool :=
  negb (bool_decide (maxConns > MaxConnsHardLimit)).

(** Two profiles that share a name but not a proxy user. *)
Definition sameNameA : Profile :=
  {| Name := "db"; ListenAddr := "127.0.0.1:3307"; MaxConns := 20;
     ProxyUser := "proxy_a"; ProxyPassword := "s3cret";
     RDSHost := "a.example"; RDSPort := 3306; RDSRegion := "eu-west-1";
     RDSDBUser := "db_user_1"; AWSProfile := ""; DefaultDB := "";
     CABundle := "/tmp/ca.pem" |}.

Definition sameNameB : Profile :=
  {| Name := "db"; ListenAddr := "127.0.0.1:3308"; MaxConns := 20;
     ProxyUser := "proxy_b"; ProxyPassword := "s3cret";
     RDSHost := "b.example"; RDSPort := 3306; RDSRegion := "eu-west-1";
     RDSDBUser := "db_user_1"; AWSProfile := ""; DefaultDB := "";
     CABundle := "/tmp/ca.pem" |}.

(** [strings.Split(s, sep)] for a one-byte separator. *)
Fixpoint Split_on (sep : Ascii.ascii) (s : string) : list string :=
  match s with
  | EmptyString => [EmptyString]
  | String c rest =>
    if Ascii.eqb c sep then EmptyString :: Split_on sep rest
    else match Split_on sep rest with
         | [] => [String c EmptyString]
         | w :: ws => String c w :: ws
         end
  end.



Definition countProvided (profileName profilesCSV : string) (allProfiles : bool) : Z :=
  (if decide (proxy.TrimSpace profileName ≠ "") then 1 else 0) +
  (if decide (proxy.TrimSpace profilesCSV ≠ "") then 1 else 0) +
  (if allProfiles then 1 else 0).

End cmd.

(** * Theorems *)

(** ** Saturating time arithmetic *)

Lemma Time_Sub_gt (t u rb : Z) :
  rb < maxDuration -> t - u > rb -> Time_Sub t u > rb.
Proof. unfold Time_Sub, maxDuration, minDuration. lia. Qed.

Lemma Time_Sub_le (t u rb : Z) :
  minDuration <= rb -> t - u <= rb -> Time_Sub t u <= rb.
Proof. unfold Time_Sub, maxDuration, minDuration. lia. Qed.

(** ** The token cache *)

Section TokenCache.
Import config token.
Context {Provider : Type} (E : Env Provider).

Local Abbreviation St := (State Provider).

Lemma lookup_fresh_hit (key : string) (s : St) (e : CachedToken) :
  entries s !! key = Some e ->
  Time_Sub (ExpiresAt e) (clock E (clockReads s)) > refreshBefore s ->
  lookup_fresh E key s = (Some e, tick s).
Proof.
  intros He Hgt. unfold lookup_fresh. rewrite He. simpl.
  by rewrite bool_decide_eq_true_2.
Qed.

Lemma lookup_fresh_miss (key : string) (s : St) :
  ¬ is_fresh E key s ->
  (lookup_fresh E key s).1 = None ∧
  ((lookup_fresh E key s).2 = s ∨ (lookup_fresh E key s).2 = tick s).
Proof.
  intros Hn. unfold lookup_fresh.
  destruct (entries s !! key) as [e|] eqn:He; simpl; [|by auto].
  case_bool_decide as Hd; simpl; [|by auto].
  exfalso. apply Hn. by exists e.
Qed.

Lemma lookup_fresh_Some (key : string) (s s1 : St) (e : CachedToken) :
  lookup_fresh E key s = (Some e, s1) ->
  entries s !! key = Some e ∧ s1 = tick s ∧
  Time_Sub (ExpiresAt e) (clock E (clockReads s)) > refreshBefore s.
Proof.
  unfold lookup_fresh.
  destruct (entries s !! key) as [e'|] eqn:He; simpl; [|congruence].
  case_bool_decide as Hd; intros [= <- <-]; auto.
Qed.

(** What [getOrInitProvider] leaves alone. *)
Lemma getOrInitProvider_frame (p : Profile) (s s2 : St) (r : result Provider) :
  getOrInitProvider E p s = (r, s2) ->
  entries s2 = entries s ∧ refreshBefore s2 = refreshBefore s ∧
  tokenTTL s2 = tokenTTL s ∧ clockReads s2 = clockReads s ∧
  buildCalls s2 = buildCalls s.
Proof.
  unfold getOrInitProvider.
  destruct (awsProviders s !! providerKey p); [by intros [= <- <-]|].
  destruct (loadDefaultAWSConfig E _ _); by intros [= <- <-].
Qed.

(** The state after a successful [build]: one builder call, one clock read. *)
Lemma build_Ok (p : Profile) (ttl : Z) (provider : Provider) (s : St) (tok : string) :
  buildRDSAuthToken E (buildCalls s) (JoinHostPort E (RDSHost p) (Itoa (RDSPort p)))
    (RDSRegion p) (RDSDBUser p) provider = Ok tok ->
  build E p ttl provider s =
    (Ok {| Value := tok; ExpiresAt := clock E (clockReads s) + ttl |},
     tick (count_build s)).
Proof. intros Hb. unfold build. by rewrite Hb. Qed.

Lemma build_Ok_inv (p : Profile) (ttl : Z) (provider : Provider) (s s3 : St)
    (t : CachedToken) :
  build E p ttl provider s = (Ok t, s3) ->
  buildRDSAuthToken E (buildCalls s) (JoinHostPort E (RDSHost p) (Itoa (RDSPort p)))
    (RDSRegion p) (RDSDBUser p) provider = Ok (Value t) ∧
  ExpiresAt t = clock E (clockReads s) + ttl ∧ s3 = tick (count_build s).
Proof.
  unfold build. destruct (buildRDSAuthToken E _ _ _ _ _) as [tok|err]; [|done].
  simpl. by intros [= <- <-].
Qed.

(** On a cache hit [Get] returns the stored entry; only the clock was read. *)
Lemma Get_fresh (p : Profile) (s : St) (e : CachedToken) :
  entries s !! cacheKey p = Some e ->
  Time_Sub (ExpiresAt e) (clock E (clockReads s)) > refreshBefore s ->
  Get E p s = (Ok e, tick s).
Proof.
  intros He Hgt. unfold Get. by rewrite (lookup_fresh_hit _ _ e).
Qed.

(** Outside the freshness window a successful [Get] went through the
    provider lookup and the builder, and stored what it returns. *)
Lemma Get_stale_Ok_inv (p : Profile) (s s' : St) (t : CachedToken) :
  ¬ is_fresh E (cacheKey p) s ->
  Get E p s = (Ok t, s') ->
  ∃ provider s2,
    getOrInitProvider E p (lookup_fresh E (cacheKey p) s).2 = (Ok provider, s2) ∧
    buildRDSAuthToken E (buildCalls s) (JoinHostPort E (RDSHost p) (Itoa (RDSPort p)))
      (RDSRegion p) (RDSDBUser p) provider = Ok (Value t) ∧
    ExpiresAt t = clock E (clockReads s2) + tokenTTL s ∧
    s' = set_entries (insert (cacheKey p) t) (tick (count_build s2)).
Proof.
  intros Hn. destruct (lookup_fresh_miss (cacheKey p) s Hn) as [Hnone Hst].
  unfold Get. destruct (lookup_fresh E (cacheKey p) s) as [o s1]. simpl in *. subst o.
  destruct (getOrInitProvider E p s1) as [[provider|err] s2] eqn:Hp; [|done].
  destruct (build E p (tokenTTL s2) provider s2) as [[fresh|err] s3] eqn:Hb; [|done].
  intros [= <- <-]. exists provider, s2.
  apply build_Ok_inv in Hb as (Hb & Hexp & ->).
  apply getOrInitProvider_frame in Hp as (_ & _ & Httl & _ & Hbc).
  assert (tokenTTL s1 = tokenTTL s ∧ buildCalls s1 = buildCalls s) as [Ht1 Hb1]
    by (destruct Hst as [->| ->]; done).
  split; [done|]. rewrite <- Hb1, <- Hbc. split; [done|].
  rewrite <- Ht1, <- Httl. done.
Qed.

(** Outside the freshness window, once the provider is at hand and the
    builder answers, [Get] returns the new token and has stored it. *)
Lemma Get_stale_Ok (p : Profile) (s s2 : St) (provider : Provider) (tok : string) :
  ¬ is_fresh E (cacheKey p) s ->
  getOrInitProvider E p (lookup_fresh E (cacheKey p) s).2 = (Ok provider, s2) ->
  buildRDSAuthToken E (buildCalls s) (JoinHostPort E (RDSHost p) (Itoa (RDSPort p)))
    (RDSRegion p) (RDSDBUser p) provider = Ok tok ->
  let t := {| Value := tok; ExpiresAt := clock E (clockReads s2) + tokenTTL s |} in
  Get E p s = (Ok t, set_entries (insert (cacheKey p) t) (tick (count_build s2))).
Proof.
  intros Hn Hp Hb t. destruct (lookup_fresh_miss (cacheKey p) s Hn) as [Hnone Hst].
  unfold Get. destruct (lookup_fresh E (cacheKey p) s) as [o s1]. simpl in *. subst o.
  rewrite Hp.
  assert (tokenTTL s1 = tokenTTL s ∧ buildCalls s1 = buildCalls s) as [Ht1 Hb1]
    by (destruct Hst as [->| ->]; done).
  apply getOrInitProvider_frame in Hp as (_ & _ & Httl & _ & Hbc).
  rewrite (build_Ok p _ provider s2 tok); [|by rewrite Hbc, Hb1].
  subst t. by rewrite Httl, Ht1.
Qed.

(** What any [Get] call, successful or not, does to the cache: the
    configuration is kept, the clock only moves on, and the entries are
    either untouched or extended by one token minted during the call. *)
Lemma Get_frame (p : Profile) (s : St) :
  let s' := (Get E p s).2 in
  refreshBefore s' = refreshBefore s ∧ tokenTTL s' = tokenTTL s ∧
  (clockReads s <= clockReads s')%nat ∧
  (entries s' = entries s ∨
   ∃ t n, entries s' = <[cacheKey p := t]> (entries s) ∧
          (clockReads s <= n < clockReads s')%nat ∧
          ExpiresAt t = clock E n + tokenTTL s).
Proof.
  unfold Get.
  assert (∃ o s1, lookup_fresh E (cacheKey p) s = (o, s1) ∧ (s1 = s ∨ s1 = tick s))
    as (o & s1 & -> & Hs1).
  { unfold lookup_fresh. destruct (entries s !! cacheKey p); simpl; [|by eauto].
    case_bool_decide; eauto. }
  assert (refreshBefore s1 = refreshBefore s ∧ tokenTTL s1 = tokenTTL s ∧
          (clockReads s <= clockReads s1)%nat ∧ entries s1 = entries s)
    as (Hrb & Httl & Hcr & Hen)
    by (destruct Hs1 as [->| ->]; simpl; repeat split; lia).
  destruct o as [e|]; simpl; [by auto|].
  destruct (getOrInitProvider E p s1) as [[provider|err] s2] eqn:Hp;
    apply getOrInitProvider_frame in Hp as (He2 & Hrb2 & Httl2 & Hcr2 & _);
    simpl; [|repeat split; try congruence; try lia; left; congruence].
  destruct (build E p (tokenTTL s2) provider s2) as [[fresh|err] s3] eqn:Hb; simpl.
  - apply build_Ok_inv in Hb as (_ & Hexp & ->). simpl.
    repeat split; try congruence; try lia.
    right. exists fresh, (clockReads s2). repeat split; try congruence; lia.
  - unfold build in Hb. destruct (buildRDSAuthToken E _ _ _ _ _); [done|].
    injection Hb as _ <-. simpl.
    repeat split; try congruence; try lia. left; congruence.
Qed.

Lemma reachable_inv (rb ttl : Z) (s : St) :
  reachable E rb ttl s ->
  refreshBefore s = rb ∧ tokenTTL s = ttl ∧ minted_before E s.
Proof.
  induction 1 as [reads loads builds|p s Hr (Hrb & Httl & Hm)|s Hr (Hrb & Httl & Hm)].
  - repeat split. intros k e. simpl. by rewrite lookup_empty.
  - destruct (Get_frame p s) as (Hrb' & Httl' & Hcr & Hen).
    repeat split; [congruence..|].
    intros k e Hk. destruct Hen as [Hen|(t & n & Hen & Hn & Hexp)].
    + rewrite Hen in Hk. destruct (Hm k e Hk) as (n & Hn & Hexp).
      exists n. split; [lia|congruence].
    + rewrite Hen in Hk. destruct (decide (cacheKey p = k)) as [<-|Hne].
      * rewrite lookup_insert_eq in Hk. injection Hk as <-.
        exists n. split; [lia|congruence].
      * rewrite lookup_insert_ne in Hk by done.
        destruct (Hm k e Hk) as (n' & Hn' & Hexp').
        exists n'. split; [lia|congruence].
  - repeat split; [done..|].
    intros k e Hk. destruct (Hm k e Hk) as (n & Hn & Hexp).
    exists n. simpl. split; [lia|done].
Qed.

(** With [refreshBefore ≥ tokenTTL] no reachable cache ever holds a fresh
    entry. *)
Lemma reachable_never_fresh (rb ttl : Z) (s : St) (key : string) :
  monotone_clock E -> minDuration <= rb -> ttl <= rb ->
  reachable E rb ttl s -> ¬ is_fresh E key s.
Proof.
  intros Hmono Hmin Hle Hr (e & He & Hgt).
  destruct (reachable_inv rb ttl s Hr) as (Hrb & Httl & Hm).
  destruct (Hm key e He) as (n & Hn & Hexp).
  pose proof (Hmono n (clockReads s) ltac:(lia)) as Hc.
  assert (Time_Sub (ExpiresAt e) (clock E (clockReads s)) <= rb)
    by (apply Time_Sub_le; lia).
  lia.
Qed.

Lemma lookup_fresh_state (key : string) (s : St) :
  (lookup_fresh E key s).2 = s ∨ (lookup_fresh E key s).2 = tick s.
Proof.
  unfold lookup_fresh. destruct (entries s !! key); simpl; [|by auto].
  case_bool_decide; auto.
Qed.

(** A successful [Get] leaves its result stored under the profile's key. *)
Lemma Get_Ok_stored (p : Profile) (s s' : St) (t : CachedToken) :
  Get E p s = (Ok t, s') -> entries s' !! cacheKey p = Some t.
Proof.
  unfold Get.
  destruct (lookup_fresh E (cacheKey p) s) as [[e|] s1] eqn:Hl.
  - intros [= <- <-]. by apply lookup_fresh_Some in Hl as (He & -> & _).
  - destruct (getOrInitProvider E p s1) as [[provider|err] s2]; [|done].
    destruct (build E p (tokenTTL s2) provider s2) as [[fresh|err] s3]; [|done].
    intros [= <- <-]. simpl. by rewrite lookup_insert_eq.
Qed.

(** A [Get] whose key is stored and fresh is served from the cache, whichever
    profile produced the key. *)
Lemma Get_same_key_hit (p p' : Profile) (s : St) (e : CachedToken) :
  cacheKey p' = cacheKey p ->
  entries s !! cacheKey p = Some e ->
  Time_Sub (ExpiresAt e) (clock E (clockReads s)) > refreshBefore s ->
  Get E p' s = (Ok e, tick s).
Proof. intros Hk He Hgt. apply Get_fresh; [by rewrite Hk|done]. Qed.

(** A mint followed by a lookup of the same key that comes less than
    [tokenTTL − refreshBefore] after the mint was stamped: the second call
    is served from the cache. *)
Lemma Get_back_to_back (p p' : Profile) (s s1 : St) (t1 : CachedToken) :
  is_Duration (tokenTTL s) -> refreshBefore s < tokenTTL s ->
  cacheKey p' = cacheKey p ->
  ¬ is_fresh E (cacheKey p) s ->
  Get E p s = (Ok t1, s1) ->
  clock E (clockReads s1) - clock E (Nat.pred (clockReads s1))
    < tokenTTL s - refreshBefore s ->
  Get E p' s1 = (Ok t1, tick s1) ∧
  buildCalls (tick s1) = S (buildCalls s).
Proof.
  intros [_ Hmax] Hlt Hkey Hn HG Hel.
  destruct (Get_stale_Ok_inv p s s1 t1 Hn HG) as (provider & s2 & Hp & _ & Hexp & ->).
  apply getOrInitProvider_frame in Hp as (_ & Hrb & _ & _ & Hbc).
  assert (refreshBefore s2 = refreshBefore s ∧ buildCalls s2 = buildCalls s)
    as [Hrb' Hbc'].
  { destruct (lookup_fresh_miss (cacheKey p) s Hn) as [_ [Hs| Hs]];
      rewrite Hs in Hrb, Hbc; simpl in *; split; congruence. }
  simpl in Hel. split; [|simpl; lia].
  apply Get_fresh.
  - simpl. rewrite Hkey. by rewrite lookup_insert_eq.
  - simpl. rewrite Hrb'. apply Time_Sub_gt; lia.
Qed.

(** C1 — Token cache freshness policy.
    (1) For every profile and every state of the cache, [Get] returns the
    stored entry verbatim without invoking the token builder if and only if
    the entry is fresh, that is [ExpiresAt − now > refreshBefore] at lookup
    time; otherwise, once the provider is at hand and the builder answers, it
    invokes the builder, stores the new token with
    [ExpiresAt = now + tokenTTL] and returns it.
    (2) With [refreshBefore ≥ tokenTTL], on every cache reachable from [New]
    under a clock that does not run backwards, no lookup is fresh and every
    successful [Get] invokes the builder.
    (3) With [refreshBefore < tokenTTL], when a successful [Get] that minted
    is followed back-to-back (the next lookup comes less than
    [tokenTTL − refreshBefore] after the mint was stamped) by a [Get] for the
    same key, the second call returns the identical token and the builder
    was invoked exactly once over the two calls; this covers every
    configuration with [refreshBefore < tokenTTL] when the second lookup
    reads the clock value the mint was stamped with. *)
Theorem Get_freshness_policy :
  (∀ (p : Profile) (s : St),
     ((∃ e, entries s !! cacheKey p = Some e ∧ (Get E p s).1 = Ok e ∧
            buildCalls (Get E p s).2 = buildCalls s)
      ↔ is_fresh E (cacheKey p) s) ∧
     (¬ is_fresh E (cacheKey p) s ->
      ∀ (provider : Provider) (s2 : St) (tok : string),
        getOrInitProvider E p (lookup_fresh E (cacheKey p) s).2 = (Ok provider, s2) ->
        buildRDSAuthToken E (buildCalls s)
          (JoinHostPort E (RDSHost p) (Itoa (RDSPort p)))
          (RDSRegion p) (RDSDBUser p) provider = Ok tok ->
        let t := {| Value := tok;
                    ExpiresAt := clock E (clockReads s2) + tokenTTL s |} in
        (Get E p s).1 = Ok t ∧
        entries (Get E p s).2 !! cacheKey p = Some t ∧
        buildCalls (Get E p s).2 = S (buildCalls s))) ∧
  (∀ (rb ttl : Z) (s : St) (p : Profile),
     monotone_clock E -> is_Duration rb -> ttl <= rb ->
     reachable E rb ttl s ->
     ¬ is_fresh E (cacheKey p) s ∧
     ∀ t s', Get E p s = (Ok t, s') ->
             buildCalls s' = S (buildCalls s) ∧
             entries s' !! cacheKey p = Some t ∧
             ExpiresAt t = clock E (Nat.pred (clockReads s')) + ttl) ∧
  (∀ (p p' : Profile) (s s1 : St) (t1 : CachedToken),
     is_Duration (tokenTTL s) -> refreshBefore s < tokenTTL s ->
     cacheKey p' = cacheKey p ->
     ¬ is_fresh E (cacheKey p) s ->
     Get E p s = (Ok t1, s1) ->
     clock E (clockReads s1) - clock E (Nat.pred (clockReads s1))
       < tokenTTL s - refreshBefore s ->
     Get E p' s1 = (Ok t1, tick s1) ∧
     buildCalls (tick s1) = S (buildCalls s)) ∧
  (∀ (p p' : Profile) (s s1 : St) (t1 : CachedToken),
     is_Duration (tokenTTL s) -> refreshBefore s < tokenTTL s ->
     cacheKey p' = cacheKey p ->
     ¬ is_fresh E (cacheKey p) s ->
     Get E p s = (Ok t1, s1) ->
     clock E (clockReads s1) = clock E (Nat.pred (clockReads s1)) ->
     Get E p' s1 = (Ok t1, tick s1) ∧
     buildCalls (tick s1) = S (buildCalls s)).
Proof.
  split; [|split; [|split]].
  - intros p s. split; [split|].
    + intros (e & He & Hr & Hb).
      destruct (decide (Time_Sub (ExpiresAt e) (clock E (clockReads s))
                        > refreshBefore s)) as [Hgt|Hle]; [by exists e|].
      assert (¬ is_fresh E (cacheKey p) s) as Hn.
      { intros (e' & He' & Hgt'). rewrite He in He'. injection He' as <-. done. }
      destruct (Get E p s) as [r s'] eqn:HG. simpl in *. subst r.
      destruct (Get_stale_Ok_inv p s s' e Hn HG) as (provider & s2 & Hp & _ & _ & ->).
      apply getOrInitProvider_frame in Hp as (_ & _ & _ & _ & Hbc).
      simpl in Hb. rewrite Hbc in Hb.
      destruct (lookup_fresh_miss (cacheKey p) s Hn) as [_ [Hs| Hs]];
        rewrite Hs in Hb; simpl in Hb; lia.
    + intros (e & He & Hgt). exists e. by rewrite (Get_fresh p s e).
    + intros Hn provider s2 tok Hp Hb t.
      rewrite (Get_stale_Ok p s s2 provider tok Hn Hp Hb). simpl.
      split; [done|]. split; [by rewrite lookup_insert_eq|].
      apply getOrInitProvider_frame in Hp as (_ & _ & _ & _ & Hbc).
      destruct (lookup_fresh_miss (cacheKey p) s Hn) as [_ [Hs| Hs]];
        rewrite Hs in Hbc; simpl in Hbc; lia.
  - intros rb ttl s p Hmono [Hmin _] Hle Hr.
    assert (¬ is_fresh E (cacheKey p) s) as Hn
      by (by apply (reachable_never_fresh rb ttl)).
    split; [done|]. intros t s' HG.
    destruct (Get_stale_Ok_inv p s s' t Hn HG) as (provider & s2 & Hp & _ & Hexp & ->).
    apply getOrInitProvider_frame in Hp as (_ & _ & _ & _ & Hbc).
    destruct (reachable_inv rb ttl s Hr) as (_ & Httl & _).
    simpl. split; [|split; [by rewrite lookup_insert_eq|congruence]].
    destruct (lookup_fresh_miss (cacheKey p) s Hn) as [_ [Hs| Hs]];
      rewrite Hs in Hbc; simpl in Hbc; lia.
  - intros p p' s s1 t1 Hdur Hlt Hkey Hn HG Hel.
    by apply (Get_back_to_back p p' s s1 t1).
  - intros p p' s s1 t1 Hdur Hlt Hkey Hn HG Hsame.
    apply (Get_back_to_back p p' s s1 t1); try done. rewrite Hsame. lia.
Qed.

(** ** Provider memoization *)

(** Once the provider of a profile is memoized, [Get] never calls the loader
    and keeps the provider map as it is. *)
Lemma Get_memoized (p : Profile) (s : St) (pr : Provider) :
  awsProviders s !! providerKey p = Some pr ->
  loadCalls (Get E p s).2 = loadCalls s ∧
  awsProviders (Get E p s).2 = awsProviders s.
Proof.
  intros Hpr. unfold Get.
  pose proof (lookup_fresh_state (cacheKey p) s) as Hs.
  destruct (lookup_fresh E (cacheKey p) s) as [[e|] s1]; simpl in Hs.
  - destruct Hs as [->| ->]; done.
  - assert (awsProviders s1 = awsProviders s ∧ loadCalls s1 = loadCalls s)
      as [Ha Hl] by (destruct Hs as [->| ->]; done).
    unfold getOrInitProvider. rewrite Ha, Hpr.
    unfold build. destruct (buildRDSAuthToken E _ _ _ _ _); simpl; by rewrite <- Ha.
Qed.

(** A successful [Get] that finds neither a fresh token nor a memoized
    provider calls the loader once and memoizes what it returned. *)
Lemma Get_first_load (p : Profile) (s s' : St) (t : CachedToken) :
  awsProviders s !! providerKey p = None ->
  ¬ is_fresh E (cacheKey p) s ->
  Get E p s = (Ok t, s') ->
  loadCalls s' = S (loadCalls s) ∧ is_Some (awsProviders s' !! providerKey p).
Proof.
  intros Hpr Hn HG.
  destruct (Get_stale_Ok_inv p s s' t Hn HG) as (provider & s2 & Hp & _ & _ & ->).
  assert (awsProviders (lookup_fresh E (cacheKey p) s).2 = awsProviders s ∧
          loadCalls (lookup_fresh E (cacheKey p) s).2 = loadCalls s) as [Ha Hl]
    by (destruct (lookup_fresh_state (cacheKey p) s) as [->| ->]; done).
  unfold getOrInitProvider in Hp. rewrite Ha, Hpr, Hl in Hp.
  destruct (loadDefaultAWSConfig E _ _) as [credentials|err]; [|done].
  injection Hp as <- <-. simpl. rewrite Hl. split; [done|].
  rewrite lookup_insert_eq. by eexists.
Qed.

Lemma Gets_memoized (key : string) (ps : list Profile) (s : St) (pr : Provider) :
  Forall (λ p, providerKey p = key) ps ->
  awsProviders s !! key = Some pr ->
  loadCalls (Gets E ps s).2 = loadCalls s.
Proof.
  intros Hps. revert s. induction Hps as [|p ps Hp Hps IH]; intros s Hpr; [done|].
  simpl. destruct (Get E p s) as [r s1] eqn:HG.
  destruct (Gets E ps s1) as [rs s2] eqn:HGs. simpl.
  subst key. destruct (Get_memoized p s pr Hpr) as [Hl Ha].
  rewrite HG in Hl, Ha. simpl in Hl, Ha.
  specialize (IH s1). rewrite HGs in IH. simpl in IH.
  rewrite IH; [done|]. by rewrite Ha.
Qed.

(** C3 — Credentials-provider memoization: for every fixed (region, named
    credential profile) pair, any non-empty sequence of successful [Get]
    calls on one new cache, for profiles carrying that pair, invokes the
    SDK-config loader exactly once, whatever the refresh window and TTL
    are (so also when every call mints a new token). *)
Theorem provider_loaded_once (region awsProfile : string) (ps : list Profile)
    (rb ttl : Z) (reads loads builds : nat) :
  ps ≠ [] ->
  Forall (λ p, RDSRegion p = region ∧ AWSProfile p = awsProfile) ps ->
  Forall is_Ok (Gets E ps (New rb ttl reads loads builds)).1 ->
  loadCalls (Gets E ps (New rb ttl reads loads builds)).2 = S loads.
Proof.
  intros Hne Hps Hok.
  assert (Forall (λ p, providerKey p = region +:+ "|" +:+ awsProfile) ps) as Hkeys.
  { eapply Forall_impl; [exact Hps|]. intros p [Hr Ha]. unfold providerKey.
    by rewrite Hr, Ha. }
  destruct ps as [|p ps]; [done|]. clear Hne.
  apply Forall_cons in Hkeys as [Hk Hkeys].
  set (s := New rb ttl reads loads builds) in *.
  simpl in *. destruct (Get E p s) as [r s1] eqn:HG.
  destruct (Gets E ps s1) as [rs s2] eqn:HGs. simpl in *.
  apply Forall_cons in Hok as [Hr _]. destruct r as [t|err]; [|done].
  assert (¬ is_fresh E (cacheKey p) s) as Hn
    by (intros (e & He & _); subst s; simpl in He; by rewrite lookup_empty in He).
  assert (awsProviders s !! providerKey p = None) as Hnone
    by (subst s; simpl; apply lookup_empty).
  destruct (Get_first_load p s s1 t Hnone Hn HG) as [Hl [pr Hpr]].
  rewrite Hk in Hpr.
  pose proof (Gets_memoized _ ps s1 pr Hkeys Hpr) as Hrest.
  rewrite HGs in Hrest. simpl in Hrest. rewrite Hrest, Hl. done.
Qed.

(** ** Cache-key collisions *)

(** C10 — cache-key collision: [cacheKey] joins the fields with an unescaped
    ["|"], so it is not injective: two distinct profiles (differing in name
    and backend host, both containing ["|"]) have equal keys, and for any
    pair of profiles with equal keys a [Get] for the second, issued while the
    token a successful [Get] for the first left in the cache is fresh,
    returns that very token without invoking the token builder. *)
Theorem cacheKey_collision :
  (∃ p1 p2 : Profile,
     p1 ≠ p2 ∧ RDSHost p1 ≠ RDSHost p2 ∧ cacheKey p1 = cacheKey p2) ∧
  (∀ (p1 p2 : Profile) (s s1 : St) (t1 : CachedToken),
     cacheKey p1 = cacheKey p2 ->
     Get E p1 s = (Ok t1, s1) ->
     Time_Sub (ExpiresAt t1) (clock E (clockReads s1)) > refreshBefore s1 ->
     Get E p2 s1 = (Ok t1, tick s1) ∧
     buildCalls (Get E p2 s1).2 = buildCalls s1).
Proof.
  split.
  - exists collidingA, collidingB. split; [|split]; [discriminate..|reflexivity].
  - intros p1 p2 s s1 t1 Hk HG Hgt.
    apply Get_Ok_stored in HG.
    rewrite (Get_same_key_hit p1 p2 s1 t1); done.
Qed.

End TokenCache.

Lemma testEnv_monotone : token.monotone_clock token.testEnv.
Proof. intros i j Hij. simpl. lia. Qed.

(** The freshness policy on a new cache in the test environment: the first call mints ["token-call-1"]; with a 20-minute
    refresh window over a 15-minute TTL the next call mints again; with a
    5-minute window the next call is served from the cache. *)
Lemma Get_freshness_policy_witness :
  (token.Get token.testEnv token.testProfile
     (token.New (5 * token.minute) (15 * token.minute) 0 0 0)).1
    = Ok {| token.Value := "token-call-1"; token.ExpiresAt := 15 * token.minute |} ∧
  ¬ token.is_fresh token.testEnv (token.cacheKey token.testProfile)
      (token.Get token.testEnv token.testProfile
         (token.New (20 * token.minute) (15 * token.minute) 0 0 0)).2 ∧
  token.buildCalls
    (token.Get token.testEnv token.testProfile
       (token.Get token.testEnv token.testProfile
          (token.New (5 * token.minute) (15 * token.minute) 0 0 0)).2).2 = 1%nat.
Proof.
  destruct (Get_freshness_policy token.testEnv) as (H1 & H2 & H3 & _).
  set (p := token.testProfile).
  split; [|split].
  - set (s := token.New (5 * token.minute) (15 * token.minute) 0 0 0).
    assert (¬ token.is_fresh token.testEnv (token.cacheKey p) s) as Hn.
    { intros (e & He & _). vm_compute in He. done. }
    destruct (H1 p s) as [_ Hmint].
    destruct (Hmint Hn tt
                (token.set_awsProviders (insert (token.providerKey p) tt)
                   (token.count_load s)) "token-call-1") as (Hr & _ & _).
    + reflexivity.
    + reflexivity.
    + exact Hr.
  - apply (H2 (20 * token.minute) (15 * token.minute)).
    + exact testEnv_monotone.
    + unfold is_Duration, minDuration, maxDuration, token.minute. lia.
    + unfold token.minute. lia.
    + apply token.reach_Get, token.reach_New.
  - set (s := token.New (5 * token.minute) (15 * token.minute) 0 0 0).
    assert (¬ token.is_fresh token.testEnv (token.cacheKey p) s) as Hn.
    { intros (e & He & _). vm_compute in He. done. }
    set (t1 := {| token.Value := "token-call-1";
                  token.ExpiresAt := 15 * token.minute |}).
    set (s1 := (token.Get token.testEnv p s).2).
    assert (token.Get token.testEnv p s = (Ok t1, s1)) as HG
      by (apply injective_projections; [vm_compute; reflexivity|reflexivity]).
    assert (is_Duration (token.tokenTTL s)) as Hdur
      by (vm_compute; split; discriminate).
    assert (token.refreshBefore s < token.tokenTTL s) as Hlt by (vm_compute; done).
    assert (token.clock token.testEnv (token.clockReads s1)
            - token.clock token.testEnv (Nat.pred (token.clockReads s1))
            < token.tokenTTL s - token.refreshBefore s) as Hel
      by (vm_compute; done).
    destruct (H3 p p s s1 t1 Hdur Hlt eq_refl Hn HG Hel) as [HG2 Hb].
    rewrite HG2. exact Hb.
Defined.

(** Two calls on a new cache that mints on every call (20-minute window,
    15-minute TTL): two builder calls, one loader call. *)
Lemma provider_loaded_once_witness :
  token.loadCalls
    (token.Gets token.testEnv [token.testProfile; token.testProfile]
       (token.New (20 * token.minute) (15 * token.minute) 0 0 0)).2 = 1%nat ∧
  token.buildCalls
    (token.Gets token.testEnv [token.testProfile; token.testProfile]
       (token.New (20 * token.minute) (15 * token.minute) 0 0 0)).2 = 2%nat.
Proof.
  split; [|vm_compute; reflexivity].
  apply (provider_loaded_once token.testEnv "eu-west-1" "dev").
  - discriminate.
  - repeat constructor.
  - vm_compute. repeat constructor.
Defined.

(** The colliding pair in the test environment: the token minted for host
    ["c"] is handed out for host ["b|c"]. *)
Lemma cacheKey_collision_witness :
  token.Get token.testEnv token.collidingB
    (token.Get token.testEnv token.collidingA
       (token.New (5 * token.minute) (15 * token.minute) 0 0 0)).2
  = (Ok {| token.Value := "token-call-1"; token.ExpiresAt := 15 * token.minute |},
     token.tick
       (token.Get token.testEnv token.collidingA
          (token.New (5 * token.minute) (15 * token.minute) 0 0 0)).2).
Proof.
  set (s := token.New (5 * token.minute) (15 * token.minute) 0 0 0).
  set (s1 := (token.Get token.testEnv token.collidingA s).2).
  set (t1 := {| token.Value := "token-call-1";
                token.ExpiresAt := 15 * token.minute |}).
  destruct (cacheKey_collision token.testEnv) as [_ H].
  apply (H token.collidingA token.collidingB s s1 t1).
  - reflexivity.
  - apply injective_projections; [vm_compute; reflexivity|reflexivity].
  - vm_compute. reflexivity.
Defined.

(** ** Profile validation *)

Section Validation.
Import config.
Context {IP : Type} (E : Env IP).

Lemma isLoopbackAddr_spec (addr : string) :
  isLoopbackAddr E addr = true ↔ host_is_loopback_ip E addr.
Proof.
  unfold isLoopbackAddr, host_is_loopback_ip. split.
  - destruct (SplitHostPort E addr) as [[host port]|err] eqn:Hs; [|done].
    destruct (ParseIP E host) as [ip|] eqn:Hp; [|done].
    intros Hl. by exists host, port, ip.
  - intros (host & port & ip & -> & Hp & Hl). by rewrite Hp.
Qed.

(** C8 — max-conns validation bounds: [validateProfile] returns an error
    whenever [max_conns] exceeds the hard cap of 200 and whenever it is less
    than 1 (and, once name and proxy user are present, that error is the
    max_conns one); for every profile whose [max_conns] lies in [1, 200] the
    max_conns checks pass: no max_conns error is returned. *)
Theorem validateProfile_max_conns (p : Profile) :
  (MaxConns p > 200 -> ∃ e, validateProfile E p = Some e) ∧
  (MaxConns p < 1 -> ∃ e, validateProfile E p = Some e) ∧
  (Name p ≠ "" -> ProxyUser p ≠ "" -> MaxConns p > 200 ->
   validateProfile E p = Some (errors_New "max_conns must be <= 200")) ∧
  (Name p ≠ "" -> ProxyUser p ≠ "" -> MaxConns p < 1 ->
   validateProfile E p = Some (errors_New "max_conns must be >= 1")) ∧
  (1 <= MaxConns p <= 200 ->
   ∀ e, validateProfile E p = Some e -> HasPrefix (Error e) "max_conns" = false).
Proof.
  unfold validateProfile, maxConnsHardLimit.
  repeat split.
  - intros Hgt. repeat case_decide; eauto; lia.
  - intros Hlt. repeat case_decide; eauto; lia.
  - intros Hn Hu Hgt. repeat case_decide; try done; lia.
  - intros Hn Hu Hlt. repeat case_decide; try done; lia.
  - intros Hin e. repeat case_decide; try lia;
      try (intros [= <-]; reflexivity).
    destruct (SplitHostPort E (ListenAddr p)) as [hp|err]; [done|].
    intros [= <-]. reflexivity.
Qed.

(** C9 — loopback enforcement: for every profile whose listen address host
    does not parse as an IP loopback address, [ValidateRuntime] returns an
    error (the "is not loopback" one once the password checks are passed);
    [ValidateRuntime] returns nil only when the host is an IP literal whose
    [IsLoopback] holds. *)
Theorem ValidateRuntime_loopback (p : Profile) (allowDevEmptyPassword : bool) :
  (¬ host_is_loopback_ip E (ListenAddr p) ->
   ∃ e, ValidateRuntime E p allowDevEmptyPassword = Some e) ∧
  (¬ host_is_loopback_ip E (ListenAddr p) ->
   ProxyPassword p ≠ "" -> ProxyPassword p ≠ "change-me" ->
   ProxyPassword p ≠ "change-me-too" ->
   ValidateRuntime E p allowDevEmptyPassword =
     Some (errors_New ("listen_addr " +:+ quote (ListenAddr p) +:+ " is not loopback"))) ∧
  (ValidateRuntime E p allowDevEmptyPassword = None ->
   host_is_loopback_ip E (ListenAddr p)).
Proof.
  unfold ValidateRuntime. repeat split.
  - intros Hn. rewrite <- isLoopbackAddr_spec in Hn.
    destruct (isLoopbackAddr E (ListenAddr p)); [done|].
    destruct (_ && _); [by eauto|]. destruct (_ || _); [by eauto|].
    simpl. eauto.
  - intros Hn H1 H2 H3. rewrite <- isLoopbackAddr_spec in Hn.
    destruct (isLoopbackAddr E (ListenAddr p)); [done|].
    rewrite !bool_decide_eq_false_2 by done. done.
  - intros Hv. apply isLoopbackAddr_spec.
    destruct (isLoopbackAddr E (ListenAddr p)); [done|].
    destruct (_ && _); [done|]. destruct (_ || _); done.
Qed.

End Validation.

(** A profile with [max_conns] one above the hard cap, as in the package's
    test, and the same profile at the cap. *)
Lemma validateProfile_max_conns_witness :
  config.validateProfile config.testEnv
    {| config.Name := "p"; config.ListenAddr := "127.0.0.1:3307";
       config.MaxConns := config.MaxConnsHardLimit + 1;
       config.ProxyUser := "local_proxy_1"; config.ProxyPassword := "pw";
       config.RDSHost := "db"; config.RDSPort := 0;
       config.RDSRegion := "eu-west-1"; config.RDSDBUser := "db_user_1";
       config.AWSProfile := ""; config.DefaultDB := "";
       config.CABundle := "/tmp/ca.pem" |}
  = Some (errors_New "max_conns must be <= 200") ∧
  ∀ e, config.validateProfile config.testEnv
         {| config.Name := "p"; config.ListenAddr := "127.0.0.1:3307";
            config.MaxConns := 200;
            config.ProxyUser := "local_proxy_1"; config.ProxyPassword := "pw";
            config.RDSHost := "db"; config.RDSPort := 0;
            config.RDSRegion := "eu-west-1"; config.RDSDBUser := "db_user_1";
            config.AWSProfile := ""; config.DefaultDB := "";
            config.CABundle := "/tmp/ca.pem" |} = Some e ->
       HasPrefix (Error e) "max_conns" = false.
Proof.
  split.
  - apply validateProfile_max_conns; [discriminate..|vm_compute; reflexivity].
  - apply validateProfile_max_conns. simpl. lia.
Defined.

(** The profile of the package's non-loopback test: listening on 0.0.0.0
    fails runtime validation with the "is not loopback" error. *)
Lemma ValidateRuntime_loopback_witness :
  config.ValidateRuntime config.testEnv
    {| config.Name := "p1"; config.ListenAddr := "0.0.0.0:3307";
       config.MaxConns := 20;
       config.ProxyUser := "local_proxy_1"; config.ProxyPassword := "secret";
       config.RDSHost := "db.example"; config.RDSPort := 3306;
       config.RDSRegion := "eu-west-1"; config.RDSDBUser := "db_user_1";
       config.AWSProfile := ""; config.DefaultDB := "";
       config.CABundle := "/tmp/ca.pem" |} false
  = Some (errors_New ("listen_addr " +:+ config.quote "0.0.0.0:3307" +:+ " is not loopback")).
Proof.
  apply ValidateRuntime_loopback; [|discriminate..].
  intros (host & port & ip & Hs & Hp & Hl).
  vm_compute in Hs. injection Hs as <- <-.
  vm_compute in Hp. injection Hp as <-.
  vm_compute in Hl. discriminate.
Defined.

(** ** The backend pool *)

Section Pool.
Import proxy.

Lemma wrap_int_small (z : Z) : - 2 ^ 63 <= z < 2 ^ 63 -> wrap_int z = z.
Proof. intros Hz. unfold wrap_int. rewrite Z.mod_small; lia. Qed.

Lemma summaries_log (l : Level) (msg : string) (kv : list (string * string))
    (w : Effects) :
  summaries (log l msg kv w) =
  (summaries w + if is_summary {| level := l; message := msg; attrs := kv |}
                 then 1 else 0)%nat.
Proof.
  unfold summaries, log. simpl. rewrite List.filter_app, length_app. simpl.
  by destruct (is_summary _).
Qed.

Lemma summaries_summary (n : Z) (reason : string) (w : Effects) :
  summaries (summary n reason w) =
  (summaries w + if decide (n > 0)%Z then 1 else 0)%nat.
Proof.
  unfold summary. case_decide; [|lia]. by rewrite summaries_log.
Qed.

Lemma examined_cons_stale (p : BackendPool) (o : Select) (rest : list Select) :
  stale p o = true -> examined p (o :: rest) = o :: examined p rest.
Proof. intros H. simpl. by rewrite H. Qed.

(** One pass of the loop over a stale session: it is closed, a refill is
    started, and the counter moves only for a liveness failure. *)
Lemma Borrow_loop_discard (p : BackendPool) (o : Select) (rest : list Select)
    (n : Z) (reason : string) (w : Effects) :
  stale p o = true ->
  ∃ reason' w', summaries w' = summaries w ∧
    Borrow_loop p (o :: rest) n reason w =
    Borrow_loop p rest (if fails_liveness p o then wrap_int (n + 1) else n) reason' w'.
Proof.
  unfold stale, fails_liveness, over_age.
  destruct o as [err|[pooled|] now|]; simpl; try done.
  destruct (decide (Time_Sub now (createdAt pooled) > maxLife p)) as [Hage|Hage].
  - rewrite bool_decide_eq_true_2 by done. simpl. intros _.
    eexists _, _. split; [|reflexivity]. done.
  - rewrite bool_decide_eq_false_2 by done. simpl.
    destruct (Ping (conn pooled)) as [err|]; simpl; [|done].
    intros _. eexists _, _. split; [|reflexivity].
    unfold summaries. simpl. rewrite List.filter_app, length_app. simpl. lia.
Qed.

(** One pass of the loop over anything else: the call returns, logging the
    summary when the counter is positive. *)
Lemma Borrow_loop_return (p : BackendPool) (o : Select) (rest : list Select)
    (n : Z) (reason : string) (w : Effects) :
  stale p o = false ->
  fails_liveness p o = false ∧
  ∃ r w0, summaries w0 = summaries w ∧
    Borrow_loop p (o :: rest) n reason w = Some (r, summary n reason w0).
Proof.
  unfold stale, fails_liveness, over_age.
  destruct o as [err|[pooled|] now|]; simpl;
    try (intros _; split; [done|]; eexists _, _; split; [|reflexivity]; done).
  destruct (decide (Time_Sub now (createdAt pooled) > maxLife p)) as [Hage|Hage].
  - by rewrite bool_decide_eq_true_2 by done.
  - rewrite bool_decide_eq_false_2 by done. simpl.
    destruct (Ping (conn pooled)) as [err|]; simpl; [done|].
    intros _. split; [done|]. eexists _, _. split; [|reflexivity]. done.
Qed.

(** The loop invariant of [Borrow]: [n] liveness failures counted so far and
    no summary logged yet. *)
Lemma Borrow_loop_summary (p : BackendPool) (outcomes : list Select) :
  ∀ (n : Z) (reason : string) (w : Effects),
    returns_within p outcomes ->
    0 <= n -> n + Z.of_nat (length outcomes) <= maxInt ->
    summaries w = 0%nat ->
    ∃ r w', Borrow_loop p outcomes n reason w = Some (r, w') ∧
            (summaries w' = 0 ∨ summaries w' = 1)%nat ∧
            (summaries w' = 0%nat ↔
             n = 0 ∧ Forall (λ o, fails_liveness p o = false) (examined p outcomes)).
Proof.
  induction outcomes as [|o rest IH]; intros n reason w Hex Hn Hlen Hw.
  - by apply Exists_nil in Hex.
  - simpl in Hlen. destruct (stale p o) eqn:Hst.
    + apply Exists_cons in Hex as [Hex|Hex]; [congruence|].
      destruct (Borrow_loop_discard p o rest n reason w Hst)
        as (reason' & w1 & Hw1 & ->).
      rewrite examined_cons_stale by done.
      destruct (fails_liveness p o) eqn:Hfl.
      * rewrite wrap_int_small by (unfold maxInt in Hlen; lia).
        destruct (IH (n + 1) reason' w1 Hex) as (r & w' & HB & H01 & Hiff);
          [lia|lia|congruence|].
        exists r, w'. split; [done|]. split; [done|].
        rewrite Hiff, Forall_cons. split; [lia|]. intros (_ & Hf & _). congruence.
      * destruct (IH n reason' w1 Hex) as (r & w' & HB & H01 & Hiff);
          [lia|lia|congruence|].
        exists r, w'. split; [done|]. split; [done|].
        rewrite Hiff, Forall_cons. tauto.
    + destruct (Borrow_loop_return p o rest n reason w Hst)
        as (Hfl & r & w0 & Hw0 & ->).
      exists r, (summary n reason w0). split; [done|].
      rewrite summaries_summary, Hw0, Hw. simpl. rewrite Hst.
      case_decide; simpl; (split; [lia|]); split; try lia.
      intros _. split; [lia|]. by repeat constructor.
Qed.

(** C2 — one summary per [Borrow]: for every call that returns (examining
    fewer than 2^63 pooled entries, so that the [int] counter does not
    wrap), the number of info-level "refreshed stale pooled connections"
    lines it emits is 0 or 1, and it is 0 if and only if no session failing
    the liveness check was discarded during the call.  Sessions discarded
    for exceeding the maximum age are not counted. *)
Theorem Borrow_one_summary (p : BackendPool) (outcomes : list Select) :
  returns_within p outcomes ->
  Z.of_nat (length outcomes) <= maxInt ->
  ∃ r w, Borrow p outcomes = Some (r, w) ∧
         (summaries w = 0 ∨ summaries w = 1)%nat ∧
         (summaries w = 0%nat ↔
          Forall (λ o, fails_liveness p o = false) (examined p outcomes)).
Proof.
  intros Hex Hlen.
  destruct (Borrow_loop_summary p outcomes 0 "" no_effects Hex)
    as (r & w & HB & H01 & Hiff); [lia|lia|done|].
  exists r, w. split; [done|]. split; [done|]. rewrite Hiff.
  split; [by intros [_ ?]|by intros ?].
Qed.

End Pool.

(** The young-but-broken session of the package's test: one summary line. *)
Lemma Borrow_one_summary_witness :
  ∃ r w, proxy.Borrow proxy.brokenPool proxy.brokenOutcomes = Some (r, w) ∧
         proxy.summaries w = 1%nat.
Proof.
  destruct (Borrow_one_summary proxy.brokenPool proxy.brokenOutcomes)
    as (r & w & HB & H01 & Hiff).
  - apply Exists_cons_tl, Exists_cons_hd. reflexivity.
  - vm_compute. discriminate.
  - exists r, w. split; [done|].
    destruct H01 as [H0|H1]; [|done].
    apply Hiff in H0. apply Forall_cons in H0 as [H0 _].
    vm_compute in H0. discriminate.
Defined.

(** An hour-old session is stale and is discarded, yet the call logs no
    summary: the claimed equivalence fails for sessions past the maximum
    age. *)
Lemma Borrow_aged_no_summary :
  ∃ r w, proxy.Borrow proxy.agedPool proxy.agedOutcomes = Some (r, w) ∧
         proxy.closed w = [3%nat] ∧
         ¬ (proxy.summaries w = 0%nat ↔
            Forall (λ o, proxy.stale proxy.agedPool o = false)
              (proxy.examined proxy.agedPool proxy.agedOutcomes)).
Proof.
  eexists _, _. split; [vm_compute; reflexivity|]. split; [reflexivity|].
  intros [H _]. specialize (H eq_refl).
  apply Forall_cons in H as [H _]. vm_compute in H. discriminate.
Qed.

(** ** The proxy server: error classification *)

Lemma HasPrefix_app (sub post : string) : HasPrefix (sub +:+ post) sub = true.
Proof.
  unfold HasPrefix. induction sub as [|a sub IH]; simpl.
  - by destruct post.
  - by destruct (Ascii.ascii_dec a a).
Qed.

Lemma Contains_unfold (s sub : string) :
  Contains s sub =
  HasPrefix s sub || match s with EmptyString => false | String _ s' => Contains s' sub end.
Proof. by destruct s. Qed.

(** [Contains] finds every occurrence. *)
Lemma Contains_has_substring (s sub : string) :
  has_substring s sub -> Contains s sub = true.
Proof.
  intros (pre & post & ->). induction pre as [|c pre IH].
  - change ("" +:+ sub +:+ post) with (sub +:+ post).
    by rewrite Contains_unfold, HasPrefix_app.
  - change (String c pre +:+ sub +:+ post) with (String c (pre +:+ sub +:+ post)).
    rewrite Contains_unfold, IH. apply orb_true_r.
Qed.

Section ConnCloseErr.
Import proxy.

(** C6 — benign-error classification: [isConnCloseErr] is true for
    [io.EOF], for [net.ErrClosed] (and for anything wrapping either), and for
    every error whose message contains "broken pipe", "connection reset by
    peer" or "use of closed network connection"; it is false for a nil error
    and for [errors.New("unexpected protocol failure")]. *)
Theorem isConnCloseErr_classification :
  isConnCloseErr (Some (Sentinel io_EOF)) = true ∧
  isConnCloseErr (Some (Sentinel net_ErrClosed)) = true ∧
  (∀ e : error,
     errors_Is e io_EOF = true ∨ errors_Is e net_ErrClosed = true ->
     isConnCloseErr (Some e) = true) ∧
  (∀ e : error,
     has_substring (Error e) "broken pipe" ∨
     has_substring (Error e) "connection reset by peer" ∨
     has_substring (Error e) "use of closed network connection" ->
     isConnCloseErr (Some e) = true) ∧
  isConnCloseErr None = false ∧
  isConnCloseErr (Some (errors_New "unexpected protocol failure")) = false.
Proof.
  split; [reflexivity|]. split; [reflexivity|]. split; [|split].
  - intros e [H|H]; unfold isConnCloseErr; rewrite H; by rewrite ?orb_true_r.
  - intros e H. unfold isConnCloseErr, isUseOfClosedConn.
    destruct (errors_Is e net_ErrClosed || errors_Is e io_EOF); [done|].
    destruct H as [H|[H|H]]; apply Contains_has_substring in H; rewrite H;
      by rewrite ?orb_true_r.
  - split; [reflexivity|]. vm_compute. reflexivity.
Qed.

End ConnCloseErr.

(** The error values of the package's table test. *)
Lemma isConnCloseErr_classification_witness :
  proxy.isConnCloseErr (Some (errors_New "write: broken pipe")) = true ∧
  proxy.isConnCloseErr (Some (errors_New "connection reset by peer")) = true ∧
  proxy.isConnCloseErr (Some (Wrap "read tcp 127.0.0.1:3307: EOF" (Sentinel io_EOF))) = true.
Proof.
  destruct isConnCloseErr_classification as (_ & _ & His & Hmsg & _).
  split; [|split].
  - apply Hmsg. left. by exists "write: ", "".
  - apply Hmsg. right. left. by exists "", "".
  - apply His. left. reflexivity.
Defined.

(** ** The proxy server: the bidirectional pipe *)

Section Pipe.
Import proxy.

(** The first result of [pipe] is the byte count of whichever direction
    finished first, the second that of the other direction. *)
Lemma pipe_counts (run : PipeRun) :
  (pipe run).2.1 =
  match finishes_first run with
  | Upstream => (n (upstream run), n (downstream run))
  | Downstream => (n (downstream run), n (upstream run))
  end.
Proof.
  unfold pipe. destruct (finishes_first run); simpl;
    repeat (destruct (_ && _)); reflexivity.
Qed.

(** Both sockets are closed between the two receives, and a benign or nil
    pair of errors is suppressed. *)
Lemma pipe_events_and_error (run : PipeRun) :
  (∃ d1 d2, (pipe run).1 = [Received d1; ClosedClient; ClosedBackend; Received d2] ∧
            d1 = finishes_first run ∧ d1 ≠ d2) ∧
  ((err (upstream run) = None ∨ isConnCloseErr (err (upstream run)) = true) ->
   (err (downstream run) = None ∨ isConnCloseErr (err (downstream run)) = true) ->
   (pipe run).2.2 = None).
Proof.
  split.
  - unfold pipe. destruct (finishes_first run); simpl;
      repeat (destruct (_ && _)); simpl; eexists _, _; repeat split; discriminate.
  - intros Hu Hd. unfold pipe.
    assert (bool_decide (err (upstream run) ≠ None)
            && negb (isConnCloseErr (err (upstream run))) = false) as Hu'.
    { destruct Hu as [->| ->]; [done|]. by rewrite andb_false_r. }
    assert (bool_decide (err (downstream run) ≠ None)
            && negb (isConnCloseErr (err (downstream run))) = false) as Hd'.
    { destruct Hd as [->| ->]; [done|]. by rewrite andb_false_r. }
    destruct (finishes_first run); simpl; by rewrite Hu', Hd'.
Qed.

(** C5 — bidirectional pipe contract, at a run in which the backend side
    finishes first (5 bytes backend→client, then 3 bytes client→backend
    ended by the closed socket): [pipe] closes both sockets between the two
    receives and suppresses the benign error, but it returns 5 as its first
    count and 3 as its second, the counts in completion order rather than
    client→backend first. *)
Theorem pipe_backend_closes_first :
  pipe backendClosesFirst =
  ([Received Downstream; ClosedClient; ClosedBackend; Received Upstream],
   (n (downstream backendClosesFirst), n (upstream backendClosesFirst), None)) ∧
  (pipe backendClosesFirst).2.1 = (5, 3).
Proof. split; vm_compute; reflexivity. Qed.

End Pipe.

(** ** The proxy server: shutdown accounting *)

Section Shutdown.
Import proxy.

Lemma ranges_over_elem (p : Proxy) (order : list trackedConn) (tc : trackedConn) :
  ranges_over p order -> tc ∈ order ↔ ∃ id, active p !! id = Some tc.
Proof.
  intros Hr. rewrite Hr, list_elem_of_fmap. split.
  - intros ([id tc'] & -> & Hin). exists id. by apply elem_of_map_to_list.
  - intros (id & Hid). exists (id, tc). split; [done|]. by apply elem_of_map_to_list.
Qed.

(** The running maximum of [activeSummary]: it starts at [acc], bounds every
    age it has seen, and is [acc] or one of those ages. *)
Lemma oldestAge_fold (now : Z) (order : list trackedConn) (acc : Z) :
  let r := fold_left (λ oldestAge tc,
                        let age := Time_Sub now (startedAt tc) in
                        if decide (age > oldestAge) then age else oldestAge)
                     order acc in
  acc <= r ∧
  (∀ tc, tc ∈ order -> Time_Sub now (startedAt tc) <= r) ∧
  (r = acc ∨ ∃ tc, tc ∈ order ∧ r = Time_Sub now (startedAt tc)).
Proof.
  revert acc. induction order as [|tc order IH]; intros acc; cbn [fold_left].
  - split; [lia|]. split; [|by left]. intros tc Hin. by apply elem_of_nil in Hin.
  - set (acc' := if decide (Time_Sub now (startedAt tc) > acc)
                 then Time_Sub now (startedAt tc) else acc).
    assert (acc <= acc' ∧ Time_Sub now (startedAt tc) <= acc' ∧
            (acc' = acc ∨ acc' = Time_Sub now (startedAt tc))) as (H1 & H2 & H3)
      by (subst acc'; case_decide; lia).
    destruct (IH acc') as (Hle & Hub & Hat). clearbody acc'.
    set (r := fold_left _ order acc') in *. clearbody r.
    split; [lia|]. split.
    + intros tc' [->|Hin]%elem_of_cons; [lia|by apply Hub].
    + destruct Hat as [->|(tc' & Hin & Hat)].
      * destruct H3 as [->| ->]; [by left|].
        right. exists tc. split; [apply elem_of_cons; by left|done].
      * right. exists tc'. split; [apply elem_of_cons; by right|done].
Qed.

Lemma forceClose_fold (order : list trackedConn) (closed : Z) (sockets : list nat) :
  fold_left (λ '(closed, sockets) (item : option nat * option nat),
               let '(closed, sockets) :=
                 match item.1 with
                 | Some c => (closed + 1, sockets ++ [c])
                 | None => (closed, sockets)
                 end in
               match item.2 with
               | Some b => (closed + 1, sockets ++ [b])
               | None => (closed, sockets)
               end)
            (map (λ tc, (client tc, backend tc)) order) (closed, sockets)
  = (closed + Z.of_nat (length (open_sockets order)), sockets ++ open_sockets order).
Proof.
  revert closed sockets. induction order as [|tc order IH]; intros closed sockets; simpl.
  - f_equal; [lia|by rewrite app_nil_r].
  - destruct (client tc) as [c|], (backend tc) as [b|]; simpl; rewrite IH;
      f_equal; rewrite ?length_app; simpl; try lia; by rewrite <- ?app_assoc.
Qed.

(** With every client socket present, a sequence of sessions has two sockets
    per session with a backend and one per session without. *)
Lemma open_sockets_length (order : list trackedConn) :
  (∀ tc, tc ∈ order -> is_Some (client tc)) ->
  length (open_sockets order) =
  (2 * length (filter (λ tc, is_Some (backend tc)) order)
   + length (filter (λ tc, ¬ is_Some (backend tc)) order))%nat.
Proof.
  induction order as [|tc order IH]; intros Hc; [done|].
  assert (is_Some (client tc)) as [c Hcl] by (apply Hc, elem_of_cons; by left).
  specialize (IH (λ tc' Hin, Hc tc' (proj2 (elem_of_cons _ _ _) (or_intror Hin)))).
  unfold open_sockets in *. simpl. rewrite length_app, IH, Hcl.
  rewrite !filter_cons.
  destruct (backend tc) as [b|] eqn:Hb; simpl.
  - destruct (decide (is_Some (Some b))) as [_|Hn]; [|by destruct Hn].
    destruct (decide (¬ is_Some (Some b))) as [Hn|_]; [by destruct Hn|].
    simpl. lia.
  - destruct (decide (is_Some (@None nat))) as [[? ?]|_]; [done|].
    destruct (decide (¬ is_Some (@None nat))) as [_|Hn];
      [|exfalso; apply Hn; by intros [? ?]].
    simpl. lia.
Qed.

Lemma open_sockets_elem (order : list trackedConn) (tc : trackedConn) (c : nat) :
  tc ∈ order -> client tc = Some c ∨ backend tc = Some c -> c ∈ open_sockets order.
Proof.
  intros Hin Hc. unfold open_sockets. apply list_elem_of_In, in_flat_map.
  exists tc. split; [by apply list_elem_of_In|].
  apply list_elem_of_In, elem_of_app.
  destruct Hc as [-> | ->]; [left|right]; simpl; by apply list_elem_of_singleton.
Qed.

(** In a running proxy every tracked session has its client socket and
    started no later than the current clock reading. *)
Lemma tracking_sessions (now : Z) (p : Proxy) :
  tracking now p ->
  ∀ id tc, active p !! id = Some tc -> is_Some (client tc) ∧ startedAt tc <= now.
Proof.
  induction 1 as [now mc|now p connID c st _ IH Hst|now p connID b _ IH
                 |now p connID _ IH|now now' p _ IH Hle]; intros id tc Hid.
  - simpl in Hid. by rewrite lookup_empty in Hid.
  - simpl in Hid. destruct (decide (connID = id)) as [->|Hne].
    + rewrite lookup_insert_eq in Hid. injection Hid as <-. simpl. by eauto.
    + rewrite lookup_insert_ne in Hid by done. by apply (IH id).
  - unfold trackBackend in Hid.
    destruct (active p !! connID) as [tc0|] eqn:Hc; [|by apply (IH id)].
    simpl in Hid. destruct (decide (connID = id)) as [->|Hne].
    + rewrite lookup_insert_eq in Hid. injection Hid as <-. simpl.
      by apply (IH id).
    + rewrite lookup_insert_ne in Hid by done. by apply (IH id).
  - simpl in Hid. apply lookup_delete_Some in Hid as [_ Hid]. by apply (IH id).
  - destruct (IH id tc Hid) as [Hc Hs]. split; [done|lia].
Qed.

(** C7 — shutdown accounting: whatever order the map is ranged over,
    [activeSummary] returns the number of tracked sessions and an age that
    bounds [now − startedAt] of every session and, the sessions having
    started no later than [now], is attained by one of them (count 0 and age
    0 when the map is empty); [forceCloseActive] closes the client socket of
    every tracked session and the backend socket of every session with a
    backend attached and, every session having its client socket, returns
    2 × (sessions with a backend) + (sessions without). *)
Theorem shutdown_accounting (p : Proxy) (now : Z) (order : list trackedConn) :
  ranges_over p order ->
  (activeSummary p now order).1 = Z.of_nat (size (active p)) ∧
  (active p = ∅ -> activeSummary p now order = (0, 0)) ∧
  (∀ id tc, active p !! id = Some tc ->
            Time_Sub now (startedAt tc) <= (activeSummary p now order).2) ∧
  (active p ≠ ∅ ->
   (∀ id tc, active p !! id = Some tc -> startedAt tc <= now) ->
   ∃ id tc, active p !! id = Some tc ∧
            (activeSummary p now order).2 = Time_Sub now (startedAt tc)) ∧
  (∀ id tc c, active p !! id = Some tc -> client tc = Some c ->
              c ∈ (forceCloseActive p order).2) ∧
  (∀ id tc b, active p !! id = Some tc -> backend tc = Some b ->
              b ∈ (forceCloseActive p order).2) ∧
  ((∀ id tc, active p !! id = Some tc -> is_Some (client tc)) ->
   (forceCloseActive p order).1 =
   2 * Z.of_nat (with_backend p) + Z.of_nat (without_backend p)).
Proof.
  intros Hr.
  pose proof (oldestAge_fold now order 0) as Hold. cbv zeta in Hold.
  destruct Hold as (H0 & Hub & Hat).
  unfold activeSummary, forceCloseActive. rewrite forceClose_fold. simpl.
  split; [done|]. split; [|split; [|split; [|split; [|split]]]].
  - intros Hemp. unfold ranges_over in Hr.
    rewrite Hemp, map_to_list_empty in Hr. apply Permutation_nil_r in Hr as ->.
    by rewrite Hemp, map_size_empty.
  - intros id tc Hid. apply Hub, (ranges_over_elem p); [done|by exists id].
  - intros Hne Hpast.
    destruct Hat as [Hr0|(tc & Hin & Hat)].
    + apply map_choose in Hne as (id & tc & Hid).
      exists id, tc. split; [done|]. rewrite Hr0.
      assert (Time_Sub now (startedAt tc) <= 0) as Hle.
      { rewrite <- Hr0. apply Hub, (ranges_over_elem p); [done|by exists id]. }
      specialize (Hpast id tc Hid).
      unfold Time_Sub, minDuration, maxDuration in *. lia.
    + apply (ranges_over_elem p) in Hin as (id & Hid); [|done]. by exists id, tc.
  - intros id tc c Hid Hc. apply (open_sockets_elem order tc); [|by left].
    apply (ranges_over_elem p); [done|by exists id].
  - intros id tc b Hid Hb. apply (open_sockets_elem order tc); [|by right].
    apply (ranges_over_elem p); [done|by exists id].
  - intros Hcl. rewrite open_sockets_length.
    + unfold with_backend, without_backend, sessions. unfold ranges_over in Hr.
      rewrite <- !Hr. lia.
    + intros tc Hin. apply (ranges_over_elem p) in Hin as (id & Hid); [|done].
      by apply (Hcl id).
Qed.

End Shutdown.

(** Two tracked sessions, one with its backend attached: the summary at
    clock reading 5000 and the sockets a forced close goes through. *)
Lemma shutdown_accounting_witness :
  proxy.activeSummary proxy.twoSessions 5000 (proxy.sessions proxy.twoSessions)
    = (2, 4000) ∧
  (proxy.forceCloseActive proxy.twoSessions (proxy.sessions proxy.twoSessions)).1 = 3.
Proof.
  destruct (shutdown_accounting proxy.twoSessions 5000
              (proxy.sessions proxy.twoSessions)) as (_ & _ & _ & _ & _ & _ & H);
    [unfold proxy.ranges_over, proxy.sessions; reflexivity|].
  split; [vm_compute; reflexivity|].
  rewrite H; [vm_compute; reflexivity|].
  intros id tc Hid.
  apply elem_of_map_to_list in Hid.
  assert (map_to_list (proxy.active proxy.twoSessions) =
          [(42%N, {| proxy.client := Some 10%nat; proxy.backend := Some 11%nat;
                     proxy.startedAt := 1000 |});
           (43%N, {| proxy.client := Some 12%nat; proxy.backend := None;
                     proxy.startedAt := 3000 |})]) as Heq
    by (vm_compute; reflexivity).
  rewrite Heq in Hid.
  repeat (apply elem_of_cons in Hid as [[= -> ->]|Hid]; [by eexists|]).
  by apply elem_of_nil in Hid.
Defined.

(** ** The proxy server: the concurrency cap *)

Section ConcurrencyCap.
Import proxy.

Lemma count_snoc (f : Event -> bool) (tr : list Event) (e : Event) :
  count f (tr ++ [e]) = (count f tr + if f e then 1 else 0)%nat.
Proof.
  unfold count. rewrite List.filter_app, length_app. simpl. by destruct (f e).
Qed.

Lemma tally_snoc (tr : list Event) (e : Event) (k : nat) :
  tally (tr ++ [e]) k =
  ((tally tr k).1.1.1 + if acquires k e then 1 else 0,
   (tally tr k).1.1.2 + if dispatches k e then 1 else 0,
   (tally tr k).1.2 + if ends k e then 1 else 0,
   (tally tr k).2 + if releases k e then 1 else 0)%nat.
Proof. unfold tally. by rewrite !count_snoc. Qed.

Lemma New_maxConns_pos (configured : Z) : 1 <= maxConns (New configured).
Proof. unfold New. simpl. case_decide; lia. Qed.

Lemma New_maxConns_configured (configured : Z) :
  1 <= configured -> maxConns (New configured) = configured.
Proof. intros H. unfold New. simpl. case_decide; lia. Qed.

Lemma Run_inv_init (configured : Z) : Run_inv configured [] (Run_init configured).
Proof.
  unfold Run_inv, Run_init. simpl.
  split; [done|]. split; [done|]. split; [done|]. split.
  - intros k [H|H]; discriminate.
  - intros k. rewrite lookup_empty.
    repeat case_decide; done.
Qed.

(** Reading one client's tally after one more event. *)
Local Ltac name_counts j :=
  rewrite tally_snoc; unfold tally in *;
  cbn [fst snd acquires dispatches ends releases];
  set (a0 := count (acquires j) _) in *; set (d0 := count (dispatches j) _) in *;
  set (x0 := count (ends j) _) in *; set (r0 := count (releases j) _) in *;
  clearbody a0 d0 x0 r0; rewrite ?Nat.add_0_r.

Local Ltac any_client Hk k0 :=
  intros k0; pose proof (Hk k0) as Hk0; name_counts k0.

Local Ltac per_client Hk k0 k :=
  intros k0; destruct (decide (k0 = k)) as [->|Hne];
  [pose proof (Hk k) as Hk0; name_counts k;
   rewrite ?lookup_insert_eq, ?lookup_delete_eq;
   rewrite ?bool_decide_eq_true_2 by done
  |pose proof (Hk k0) as Hk0; name_counts k0;
   rewrite ?lookup_insert_ne, ?lookup_delete_ne by done;
   rewrite ?bool_decide_eq_false_2 by done; rewrite ?Nat.add_0_r].

Local Ltac finish_client :=
  repeat case_decide; simplify_eq; repeat split; simpl;
  try done; try lia; try congruence; auto;
  try (intros ?; simplify_eq; lia).

Lemma Run_inv_step (configured : Z) (tr : list Event) (s s' : RunState) (e : Event) :
  Run_inv configured tr s -> Run_step s e s' -> Run_inv configured (tr ++ [e]) s'.
Proof.
  intros (Hcap & Hsem & Htot & Hmain & Hk) Hstep.
  destruct Hstep as [s Hc Hm|s fatal Hc Hm|s k Hc Hm Hlt|s k Hc Hm|s k Hc Hm
                    |s k id panicked Hc Hw|s k id panicked Hc Hw Hpos|s Hc Hm];
    unfold Run_inv; simpl; rewrite !count_snoc; simpl.
  - (* Accept returns client [accepted s] *)
    rewrite Hm in *. split; [done|]. split; [done|]. split; [lia|]. split.
    + intros k [[= ->]|[=]]. done.
    + any_client Hk k0. destruct (workers s !! k0) as [w|].
      * destruct Hk0 as (Hlt & _ & _ & Ht). finish_client.
      * finish_client.
  - (* Accept fails *)
    rewrite Hm in *. split; [done|]. split; [by destruct fatal|]. split; [lia|]. split.
    + intros k [H|H]; destruct fatal; discriminate.
    + any_client Hk k0. destruct (workers s !! k0) as [w|].
      * destruct Hk0 as (Hlt & _ & _ & Ht). destruct fatal; finish_client.
      * destruct fatal; finish_client.
  - (* the send on [p.sem] goes through *)
    rewrite Hm in *. split; [done|]. split; [lia|]. split; [lia|]. split.
    + intros k0 [[=]|[= ->]]. apply Hmain. by left.
    + per_client Hk k0 k.
      * destruct (workers s !! k) as [w|]; [by destruct Hk0 as (_ & ? & _)|].
        finish_client.
      * destruct (workers s !! k0) as [w|].
        -- destruct Hk0 as (? & _ & _ & Ht). finish_client.
        -- finish_client.
  - (* the context is cancelled while waiting for a slot *)
    rewrite Hm in *. split; [done|]. split; [done|]. split; [lia|]. split.
    + intros k0 [[=]|[=]].
    + pose proof (Hmain k (or_introl eq_refl)) as Hacc.
      per_client Hk k0 k.
      * destruct (workers s !! k) as [w|]; [by destruct Hk0 as (_ & ? & _)|].
        finish_client.
      * destruct (workers s !! k0) as [w|].
        -- destruct Hk0 as (? & _ & _ & Ht). finish_client.
        -- finish_client.
  - (* the worker goroutine is started *)
    rewrite Hm in *.
    assert (workers s !! k = None) as Hnone.
    { specialize (Hk k). destruct (workers s !! k) as [w|]; [|done].
      by destruct Hk as (_ & _ & ? & _). }
    split; [done|]. split; [rewrite map_size_insert_None by done; lia|].
    split; [lia|]. split.
    + intros k0 [[=]|[=]].
    + pose proof (Hmain k (or_intror eq_refl)) as Hacc.
      per_client Hk k0 k.
      * rewrite Hnone in Hk0. finish_client.
      * destruct (workers s !! k0) as [w|].
        -- destruct Hk0 as (? & _ & _ & Ht). finish_client.
        -- finish_client.
  - (* [handleConn] returns or panics *)
    split; [done|]. split.
    { rewrite map_size_insert_Some by done. done. }
    split; [lia|]. split; [done|].
    per_client Hk k0 k.
    + rewrite Hw in Hk0. destruct Hk0 as (? & ? & ? & Ht). finish_client.
    + done.
  - (* the deferred receive from [p.sem] *)
    split; [done|]. split.
    { rewrite map_size_delete_Some by done.
      assert (0 < size (workers s))%nat.
      { destruct (decide (size (workers s) = 0%nat)) as [H0|]; [|lia].
        apply map_size_empty_inv in H0. rewrite H0, lookup_empty in Hw. done. }
      lia. }
    split; [lia|]. split; [done|].
    per_client Hk k0 k.
    + rewrite Hw in Hk0. destruct Hk0 as (? & ? & ? & Ht). finish_client.
    + done.
  - (* the wait after the loop is over *)
    rewrite Hm in *. split; [done|]. split; [done|]. split; [lia|]. split.
    + intros k0 [[=]|[=]].
    + any_client Hk k0. destruct (workers s !! k0) as [w|].
      * destruct Hk0 as (Hlt & _ & _ & Ht). finish_client.
      * finish_client.
Qed.

Lemma Run_trace_inv (configured : Z) (tr : list Event) (s : RunState) :
  Run_trace configured tr s -> Run_inv configured tr s.
Proof.
  induction 1 as [|tr s e s' _ IH Hstep]; [apply Run_inv_init|].
  by apply (Run_inv_step configured tr s s' e).
Qed.

(** The channel never holds more than its capacity. *)
Lemma Run_trace_cap (configured : Z) (tr : list Event) (s : RunState) :
  Run_trace configured tr s ->
  maxConns (proxy_of s) = maxConns (New configured) ∧
  Z.of_nat (sem (proxy_of s)) <= maxConns (proxy_of s).
Proof.
  induction 1 as [|tr s e s' _ [Hcap Hle] Hstep].
  - split; [done|]. pose proof (New_maxConns_pos configured).
    change (Z.of_nat 0 <= maxConns (New configured)). lia.
  - destruct Hstep; simpl; split; try done; lia.
Qed.

(** C4 — concurrency cap: along every execution of [Run] the number of held
    slots never exceeds the capacity [New] gave the semaphore (the
    configured max-conns when that is at least 1) and equals the slots
    acquired minus the slots released; for every accepted client at most
    one slot is acquired and at most one released, in the order acquire,
    dispatch, end of [handleConn], release; a running worker holds exactly
    one slot, a worker that is gone has released exactly one, and the
    deferred release of a worker whose [handleConn] returned or panicked
    can always be taken. *)
Theorem concurrency_cap (configured : Z) (tr : list Event) (s : RunState) :
  Run_trace configured tr s ->
  Z.of_nat (sem (proxy_of s)) <= maxConns (New configured) ∧
  (1 <= configured -> Z.of_nat (sem (proxy_of s)) <= configured) ∧
  (sem (proxy_of s) + count any_release tr = count any_acquire tr)%nat ∧
  (∀ k, let '(acquired, dispatched, ended, released) := tally tr k in
        (released <= ended ∧ ended <= dispatched ∧ dispatched <= acquired ∧
         acquired <= 1)%nat ∧
        (is_Some (workers s !! k) ->
         acquired = 1%nat ∧ dispatched = 1%nat ∧ released = 0%nat) ∧
        (dispatched = 1%nat -> workers s !! k = None ->
         acquired = 1%nat ∧ released = 1%nat)) ∧
  (∀ k id panicked,
     crashed s = false ->
     workers s !! k = Some {| connID := id; at_pc := TearingDown panicked |} ->
     ∃ s', Run_step s (SlotReleased k) s').
Proof.
  intros Htr.
  destruct (Run_trace_cap configured tr s Htr) as [Hcap Hle].
  destruct (Run_trace_inv configured tr s Htr) as (_ & Hsem & Htot & Hmain & Hk).
  split; [lia|]. split; [intros H1; rewrite New_maxConns_configured in Hcap by done; lia|].
  split; [done|]. split.
  - intros k. specialize (Hk k). destruct (tally tr k) as [[[a d] x] r].
    destruct (workers s !! k) as [w|].
    + destruct Hk as (_ & _ & _ & Ht). simplify_eq.
      split; [destruct (at_pc w); lia|]. split; [done|]. done.
    + assert ((a, d, x, r) = (0, 0, 0, 0)%nat ∨ (a, d, x, r) = (1, 0, 0, 0)%nat ∨
              (a, d, x, r) = (1, 1, 1, 1)%nat) as Hcases
        by (repeat case_decide; tauto).
      destruct Hcases as [Ht|[Ht|Ht]]; simplify_eq;
        (split; [lia|]); (split; [by intros [? ?]|]); done.
  - intros k id panicked Hc Hw. eexists.
    apply (step_release s k id panicked Hc Hw).
    assert (0 < size (workers s))%nat; [|lia].
    destruct (decide (size (workers s) = 0%nat)) as [H0|]; [|lia].
    apply map_size_empty_inv in H0. rewrite H0, lookup_empty in Hw. done.
Qed.

End ConcurrencyCap.

(** One client is accepted, gets a slot and a worker; its [handleConn]
    panics and the deferred release still hands the slot back. *)
Lemma concurrency_cap_witness :
  ∃ s, proxy.Run_trace 2
         [proxy.Accepted 0; proxy.SlotAcquired 0; proxy.WorkerDispatched 0 1%N;
          proxy.HandleConnEnded 0 true; proxy.SlotReleased 0] s ∧
       proxy.sem (proxy.proxy_of s) = 0%nat ∧
       proxy.tally
         [proxy.Accepted 0; proxy.SlotAcquired 0; proxy.WorkerDispatched 0 1%N;
          proxy.HandleConnEnded 0 true; proxy.SlotReleased 0] 0
       = (1, 1, 1, 1)%nat ∧
       Z.of_nat (proxy.sem (proxy.proxy_of s)) <= 2.
Proof.
  assert (∃ s, proxy.Run_trace 2
            [proxy.Accepted 0; proxy.SlotAcquired 0; proxy.WorkerDispatched 0 1%N;
             proxy.HandleConnEnded 0 true; proxy.SlotReleased 0] s ∧
            proxy.sem (proxy.proxy_of s) = 0%nat) as (s & Htr & Hsem).
  { pose proof (proxy.trace_init 2) as H0.
    eassert (proxy.Run_trace 2 _ _) as H1
      by (eapply proxy.trace_step; [exact H0|apply proxy.step_accept; reflexivity]).
    eassert (proxy.Run_trace 2 _ _) as H2
      by (eapply proxy.trace_step;
          [exact H1|apply (proxy.step_acquire _ 0%nat); reflexivity]).
    eassert (proxy.Run_trace 2 _ _) as H3
      by (eapply proxy.trace_step;
          [exact H2|apply (proxy.step_dispatch _ 0%nat); reflexivity]).
    eassert (proxy.Run_trace 2 _ _) as H4
      by (eapply proxy.trace_step;
          [exact H3
          |apply (proxy.step_handleConn_ends _ 0%nat 1%N true); reflexivity]).
    eassert (proxy.Run_trace 2 _ _) as H5
      by (eapply proxy.trace_step;
          [exact H4
          |apply (proxy.step_release _ 0%nat 1%N true);
           [reflexivity|reflexivity|apply le_n]]).
    eexists. split; [exact H5|reflexivity]. }
  exists s. split; [done|]. split; [done|]. split; [reflexivity|].
  destruct (concurrency_cap 2 _ s Htr) as (_ & Hcap & _). apply Hcap. lia.
Defined.

(** * Further properties of the code *)

(** ** Token cache: failures, isolation, keys *)

Section TokenCacheMore.
Import config token.
Context {Provider : Type} (E : Env Provider).

Local Abbreviation St := (State Provider).

(** X1 — a failing SDK-config load: when [Get] finds no fresh token and no
    memoized provider and the loader fails, [Get] returns the loader's error
    wrapped as "load aws config: ...", the builder is not called, and the
    cache holds exactly the tokens and providers it held before. *)
Theorem Get_loader_failure (p : Profile) (s : St) (err : error) :
  ¬ is_fresh E (cacheKey p) s ->
  awsProviders s !! providerKey p = None ->
  loadDefaultAWSConfig E (loadCalls s) (loadOptions p) = Err err ->
  (Get E p s).1 = Err (Wrap ("load aws config: " +:+ Error err) err) ∧
  entries (Get E p s).2 = entries s ∧
  awsProviders (Get E p s).2 = awsProviders s ∧
  buildCalls (Get E p s).2 = buildCalls s ∧
  loadCalls (Get E p s).2 = S (loadCalls s).
Proof.
  intros Hn Hpr Hload.
  destruct (lookup_fresh_miss E (cacheKey p) s Hn) as [Hnone Hst].
  unfold Get. destruct (lookup_fresh E (cacheKey p) s) as [o s1].
  simpl in Hnone, Hst. subst o.
  assert (awsProviders s1 = awsProviders s ∧ loadCalls s1 = loadCalls s ∧
          entries s1 = entries s ∧ buildCalls s1 = buildCalls s)
    as (Ha & Hl & He & Hb) by (destruct Hst as [->| ->]; done).
  unfold getOrInitProvider. fold (loadOptions p). rewrite Ha, Hpr, Hl, Hload.
  simpl. by rewrite He, Ha, Hb, Hl.
Qed.

(** X2 — a failing token builder: when the provider is at hand and the
    builder fails, [Get] returns the builder's error wrapped as "build auth
    token: ...", stores no token, but keeps the provider memoized, so the
    next [Get] for the same (region, credential profile) does not call the
    loader again. *)
Theorem Get_builder_failure (p p' : Profile) (s s2 : St) (provider : Provider)
    (err : error) :
  ¬ is_fresh E (cacheKey p) s ->
  getOrInitProvider E p (lookup_fresh E (cacheKey p) s).2 = (Ok provider, s2) ->
  buildRDSAuthToken E (buildCalls s)
    (JoinHostPort E (RDSHost p) (Itoa (RDSPort p)))
    (RDSRegion p) (RDSDBUser p) provider = Err err ->
  providerKey p' = providerKey p ->
  (Get E p s).1 = Err (Wrap ("build auth token: " +:+ Error err) err) ∧
  entries (Get E p s).2 = entries s ∧
  awsProviders (Get E p s).2 !! providerKey p = Some provider ∧
  loadCalls (Get E p' (Get E p s).2).2 = loadCalls (Get E p s).2.
Proof.
  intros Hn Hp Hb Hkey.
  destruct (lookup_fresh_miss E (cacheKey p) s Hn) as [Hnone Hst].
  assert (awsProviders s2 !! providerKey p = Some provider) as Hmem.
  { unfold getOrInitProvider in Hp.
    destruct (awsProviders _ !! providerKey p) as [pr|] eqn:Hpr.
    - injection Hp as -> <-. done.
    - destruct (loadDefaultAWSConfig E _ _); [|done].
      injection Hp as -> <-. simpl. by rewrite lookup_insert_eq. }
  assert (Get E p s = (Err (Wrap ("build auth token: " +:+ Error err) err),
                       count_build s2)) as HG.
  { unfold Get. destruct (lookup_fresh E (cacheKey p) s) as [o s1].
    simpl in *. subst o. rewrite Hp.
    apply getOrInitProvider_frame in Hp as (_ & _ & _ & _ & Hbc).
    assert (buildCalls s1 = buildCalls s) as Hb1 by (destruct Hst as [->| ->]; done).
    unfold build. by rewrite Hbc, Hb1, Hb. }
  rewrite HG. simpl. split; [done|]. split.
  { apply getOrInitProvider_frame in Hp as (He & _).
    rewrite He. destruct Hst as [->| ->]; done. }
  split; [done|].
  apply (Get_memoized E p' (count_build s2) provider). by rewrite Hkey.
Qed.

(** X3 — isolation: whatever its outcome, a [Get] for one profile leaves the
    token stored under every other cache key and the provider stored under
    every other provider key as they were, and it never removes a token or a
    provider. *)
Theorem Get_isolation (p : Profile) (s : St) :
  (∀ k, k ≠ cacheKey p -> entries (Get E p s).2 !! k = entries s !! k) ∧
  (∀ k, is_Some (entries s !! k) -> is_Some (entries (Get E p s).2 !! k)) ∧
  (∀ k, k ≠ providerKey p ->
        awsProviders (Get E p s).2 !! k = awsProviders s !! k) ∧
  (∀ k, is_Some (awsProviders s !! k) -> is_Some (awsProviders (Get E p s).2 !! k)).
Proof.
  assert (∀ s1 : St,
            let s2 := (getOrInitProvider E p s1).2 in
            entries s2 = entries s1 ∧
            (awsProviders s2 = awsProviders s1 ∨
             ∃ pr, awsProviders s1 !! providerKey p = None ∧
                   awsProviders s2 = <[providerKey p := pr]> (awsProviders s1)))
    as Hprov.
  { intros s1. unfold getOrInitProvider.
    destruct (awsProviders s1 !! providerKey p) eqn:Hpr; simpl; [by auto|].
    destruct (loadDefaultAWSConfig E _ _); simpl; [|by auto].
    split; [done|]. right. by eexists. }
  assert (entries (Get E p s).2 = entries s ∨
          ∃ t, entries (Get E p s).2 = <[cacheKey p := t]> (entries s)) as Hent.
  { destruct (Get_frame E p s) as (_ & _ & _ & [H|(t & n0 & H & _)]); eauto. }
  assert (awsProviders (Get E p s).2 = awsProviders s ∨
          ∃ pr, awsProviders s !! providerKey p = None ∧
                awsProviders (Get E p s).2 = <[providerKey p := pr]> (awsProviders s))
    as Hpro.
  { unfold Get.
    pose proof (lookup_fresh_state E (cacheKey p) s) as Hs.
    destruct (lookup_fresh E (cacheKey p) s) as [[e|] s1]; simpl in Hs.
    - left. destruct Hs as [->| ->]; done.
    - assert (awsProviders s1 = awsProviders s) as Ha
        by (destruct Hs as [->| ->]; done).
      specialize (Hprov s1). cbv zeta in Hprov.
      destruct (getOrInitProvider E p s1) as [[provider|err] s2]; simpl in Hprov;
        rewrite Ha in Hprov; [|by destruct Hprov].
      unfold build. destruct (buildRDSAuthToken E _ _ _ _ _); simpl;
        by destruct Hprov. }
  split; [|split; [|split]].
  - intros k Hk. destruct Hent as [->|[t ->]]; [done|]. by rewrite lookup_insert_ne.
  - intros k Hsome. destruct Hent as [->|[t ->]]; [done|].
    destruct (decide (cacheKey p = k)) as [<-|Hne];
      [rewrite lookup_insert_eq; by eexists|by rewrite lookup_insert_ne].
  - intros k Hk. destruct Hpro as [->|(pr & _ & ->)]; [done|].
    by rewrite lookup_insert_ne.
  - intros k Hsome. destruct Hpro as [->|(pr & _ & ->)]; [done|].
    destruct (decide (providerKey p = k)) as [<-|Hne];
      [rewrite lookup_insert_eq; by eexists|by rewrite lookup_insert_ne].
Qed.

(** X4 — no cached token outlives its TTL: on every cache reachable from
    [New] under a clock that does not run backwards, every stored token
    expires no later than [tokenTTL] after the current clock reading. *)
Theorem cached_expiry_bound (rb ttl : Z) (s : St) (k : string) (e : CachedToken) :
  monotone_clock E ->
  reachable E rb ttl s ->
  entries s !! k = Some e ->
  ExpiresAt e <= clock E (clockReads s) + ttl.
Proof.
  intros Hmono Hr He.
  destruct (reachable_inv E rb ttl s Hr) as (_ & Httl & Hm).
  destruct (Hm k e He) as (n0 & Hn & ->).
  pose proof (Hmono n0 (clockReads s) ltac:(lia)). lia.
Qed.

End TokenCacheMore.

Lemma Get_loader_failure_witness :
  (token.Get token.failingLoaderEnv token.testProfile
     (token.New (5 * token.minute) (15 * token.minute) 0 0 0)).1
  = Err (Wrap "load aws config: no credentials" (errors_New "no credentials")).
Proof.
  apply (Get_loader_failure token.failingLoaderEnv token.testProfile
           (token.New (5 * token.minute) (15 * token.minute) 0 0 0)
           (errors_New "no credentials")).
  - intros (e & He & _). vm_compute in He. done.
  - reflexivity.
  - reflexivity.
Defined.

Lemma Get_builder_failure_witness :
  (token.Get token.failingBuilderEnv token.testProfile
     (token.New (5 * token.minute) (15 * token.minute) 0 0 0)).1
  = Err (Wrap "build auth token: signing failed" (errors_New "signing failed")) ∧
  token.loadCalls
    (token.Get token.failingBuilderEnv token.testProfile
       (token.Get token.failingBuilderEnv token.testProfile
          (token.New (5 * token.minute) (15 * token.minute) 0 0 0)).2).2 = 1%nat.
Proof.
  set (s := token.New (5 * token.minute) (15 * token.minute) 0 0 0).
  destruct (Get_builder_failure token.failingBuilderEnv token.testProfile
              token.testProfile s
              (token.set_awsProviders (insert (token.providerKey token.testProfile) tt)
                 (token.count_load s)) tt (errors_New "signing failed"))
    as (Hr & _ & _ & Hl).
  - intros (e & He & _). vm_compute in He. done.
  - reflexivity.
  - reflexivity.
  - reflexivity.
  - split; [exact Hr|]. rewrite Hl. vm_compute. reflexivity.
Defined.

Lemma Get_isolation_witness :
  token.entries
    (token.Get token.testEnv token.collidingA
       (token.Get token.testEnv token.testProfile
          (token.New (20 * token.minute) (15 * token.minute) 0 0 0)).2).2
    !! token.cacheKey token.testProfile
  = Some {| token.Value := "token-call-1"; token.ExpiresAt := 15 * token.minute |}.
Proof.
  destruct (Get_isolation token.testEnv token.collidingA
              (token.Get token.testEnv token.testProfile
                 (token.New (20 * token.minute) (15 * token.minute) 0 0 0)).2)
    as (H & _).
  rewrite H; [vm_compute; reflexivity|]. vm_compute. discriminate.
Defined.

Lemma cached_expiry_bound_witness :
  15 * token.minute
  <= token.clock token.testEnv
       (token.clockReads
          (token.Get token.testEnv token.testProfile
             (token.New (5 * token.minute) (15 * token.minute) 0 0 0)).2)
     + 15 * token.minute.
Proof.
  apply (cached_expiry_bound token.testEnv (5 * token.minute) (15 * token.minute)
           _ (token.cacheKey token.testProfile)
           {| token.Value := "token-call-1"; token.ExpiresAt := 15 * token.minute |}).
  - exact testEnv_monotone.
  - apply token.reach_Get, token.reach_New.
  - vm_compute. reflexivity.
Defined.

(** ** Token cache: when the keys are injective *)

Lemma split_at_bar (a a' r r' : string) :
  ¬ has_char bar a -> ¬ has_char bar a' ->
  a +:+ String bar r = a' +:+ String bar r' -> a = a' ∧ r = r'.
Proof.
  revert a'. induction a as [|c a IH]; intros [|c' a'] Ha Ha' Heq; simpl in *.
  - by injection Heq as ->.
  - injection Heq as Hc _. exfalso. apply Ha'. by left.
  - injection Heq as Hc _. exfalso. apply Ha. by left.
  - injection Heq as -> Heq.
    destruct (IH a') as [-> ->]; [tauto|tauto|done|done].
Qed.

Lemma pretty_N_go_no_bar (x : N) (s : string) :
  ¬ has_char bar s -> ¬ has_char bar (pretty_N_go x s).
Proof.
  revert s. induction (N.lt_wf_0 x) as [x _ IH]; intros s Hs.
  assert (x = 0 ∨ 0 < x)%N as [->|Hpos] by lia.
  - by rewrite pretty_N_go_0.
  - rewrite pretty_N_go_step by done. apply IH.
    { by apply N.div_lt. }
    simpl. intros [Hc|Hc]; [|done].
    unfold pretty_N_char in Hc. by repeat case_match.
Qed.

(** A printed integer holds digits and at most a sign, never a separator. *)
Lemma Itoa_no_bar (z : Z) : ¬ has_char bar (Itoa z).
Proof.
  assert (∀ x : positive, ¬ has_char bar (pretty x)) as Hpos.
  { intros x. unfold pretty, pretty_positive, pretty, pretty_N.
    case_decide; [done|]. apply pretty_N_go_no_bar. simpl. tauto. }
  unfold Itoa, pretty, pretty_Z. destruct z as [|x|x].
  - simpl. intros [H|H]; [discriminate|done].
  - apply Hpos.
  - simpl. intros [H|H]; [discriminate|by apply (Hpos x)].
Qed.

Section Keys.
Import config token.

(** X5 — the keys are injective on separator-free fields: two profiles whose
    name, backend host, region and database user contain no ["|"] have equal
    cache keys only if all six key fields are equal; and two profiles whose
    region contains no ["|"] have equal provider keys only if region and
    credential profile are equal. *)
Theorem keys_injective_without_bar (p1 p2 : Profile) :
  (¬ has_char bar (Name p1) -> ¬ has_char bar (Name p2) ->
   ¬ has_char bar (RDSHost p1) -> ¬ has_char bar (RDSHost p2) ->
   ¬ has_char bar (RDSRegion p1) -> ¬ has_char bar (RDSRegion p2) ->
   ¬ has_char bar (RDSDBUser p1) -> ¬ has_char bar (RDSDBUser p2) ->
   cacheKey p1 = cacheKey p2 ->
   Name p1 = Name p2 ∧ RDSHost p1 = RDSHost p2 ∧ RDSPort p1 = RDSPort p2 ∧
   RDSRegion p1 = RDSRegion p2 ∧ RDSDBUser p1 = RDSDBUser p2 ∧
   AWSProfile p1 = AWSProfile p2) ∧
  (¬ has_char bar (RDSRegion p1) -> ¬ has_char bar (RDSRegion p2) ->
   providerKey p1 = providerKey p2 ->
   RDSRegion p1 = RDSRegion p2 ∧ AWSProfile p1 = AWSProfile p2).
Proof.
  split.
  - intros Hn1 Hn2 Hh1 Hh2 Hr1 Hr2 Hu1 Hu2. unfold cacheKey.
    change "|" with (String bar EmptyString). simpl.
    intros H.
    apply split_at_bar in H as [Hname H]; [|done..].
    apply split_at_bar in H as [Hhost H]; [|done..].
    apply split_at_bar in H as [Hport H]; [|apply Itoa_no_bar..].
    apply split_at_bar in H as [Hregion H]; [|done..].
    apply split_at_bar in H as [Huser H]; [|done..].
    repeat split; try done. by apply (inj pretty).
  - intros Hr1 Hr2. unfold providerKey.
    change "|" with (String bar EmptyString). simpl.
    intros H. by apply split_at_bar in H.
Qed.

End Keys.

Lemma keys_injective_without_bar_witness :
  config.Name token.testProfile = config.Name token.testProfile ∧
  config.RDSHost token.testProfile = config.RDSHost token.testProfile ∧
  config.RDSPort token.testProfile = config.RDSPort token.testProfile ∧
  config.RDSRegion token.testProfile = config.RDSRegion token.testProfile ∧
  config.RDSDBUser token.testProfile = config.RDSDBUser token.testProfile ∧
  config.AWSProfile token.testProfile = config.AWSProfile token.testProfile.
Proof.
  assert (∀ st, In st ["p1"; "db.example"; "eu-west-1"; "db_user_1"] ->
                ¬ has_char bar st) as Hno.
  { intros st Hin. simpl in Hin.
    repeat (destruct Hin as [<-|Hin];
            [vm_compute; intros H;
             repeat (destruct H as [H|H]; [discriminate|]); exact H|]).
    destruct Hin. }
  apply (keys_injective_without_bar token.testProfile token.testProfile);
    try reflexivity; apply Hno; simpl; tauto.
Defined.

(** ** Configuration: defaults, uniqueness, selection, loading *)



Section ConfigMore.
Import config.

(** X6 — defaults: [applyDefaults] fills exactly the three zero-valued
    settings (listen address, backend port, max-conns), keeps every value
    that was set and every other field, and applying it twice is the same as
    applying it once. *)
Theorem applyDefaults_spec (p : Profile) :
  ListenAddr (applyDefaults p) =
    (if decide (ListenAddr p = "") then "127.0.0.1:3307" else ListenAddr p) ∧
  RDSPort (applyDefaults p) = (if decide (RDSPort p = 0) then 3306 else RDSPort p) ∧
  MaxConns (applyDefaults p) = (if decide (MaxConns p = 0) then 20 else MaxConns p) ∧
  (Name (applyDefaults p), ProxyUser (applyDefaults p), ProxyPassword (applyDefaults p),
   RDSHost (applyDefaults p), RDSRegion (applyDefaults p), RDSDBUser (applyDefaults p),
   AWSProfile (applyDefaults p), DefaultDB (applyDefaults p), CABundle (applyDefaults p))
  = (Name p, ProxyUser p, ProxyPassword p, RDSHost p, RDSRegion p, RDSDBUser p,
     AWSProfile p, DefaultDB p, CABundle p) ∧
  applyDefaults (applyDefaults p) = applyDefaults p.
Proof.
  destruct p as [n la mc pu pp h port r u a d ca].
  unfold applyDefaults. simpl.
  repeat (case_decide; simpl in *); simplify_eq; repeat split; try done.
Qed.

(** The loop of [validateUniqueUsernames] succeeds exactly when the
    remaining proxy users are pairwise distinct and none was seen before. *)
Lemma uniqueUsernames_loop_None (profiles : list Profile) (seen : gmap string string) :
  uniqueUsernames_loop profiles seen = None ↔
  NoDup (ProxyUser <$> profiles) ∧
  ∀ p, p ∈ profiles -> seen !! ProxyUser p = None.
Proof.
  revert seen. induction profiles as [|p rest IH]; intros seen; simpl.
  - split; [intros _; split; [constructor|]|done].
    intros p Hin. by apply elem_of_nil in Hin.
  - destruct (seen !! ProxyUser p) as [prev|] eqn:Hp.
    + split; [done|]. intros [_ Hall].
      specialize (Hall p (list_elem_of_here _ _)). congruence.
    + rewrite IH, NoDup_cons. split.
      * intros [Hnd Hall]. split; [split; [|done]|].
        -- intros Hin. apply list_elem_of_fmap in Hin as (q & Hq & Hin).
           specialize (Hall q Hin). rewrite <- Hq, lookup_insert_eq in Hall. done.
        -- intros q [->|Hin]%elem_of_cons; [done|].
           specialize (Hall q Hin).
           destruct (decide (ProxyUser p = ProxyUser q)) as [Heq|Hne].
           ++ rewrite Heq, lookup_insert_eq in Hall. done.
           ++ by rewrite lookup_insert_ne in Hall.
      * intros [[Hnin Hnd] Hall]. split; [done|].
        intros q Hin. rewrite lookup_insert_ne.
        -- apply Hall. by apply elem_of_cons; right.
        -- intros Heq. apply Hnin. rewrite Heq. by apply list_elem_of_fmap_2.
Qed.

(** X7 — unique proxy users: [validateUniqueUsernames] returns nil exactly
    when the proxy users of the profiles are pairwise distinct. *)
Theorem validateUniqueUsernames_NoDup (profiles : list Profile) :
  validateUniqueUsernames profiles = None ↔ NoDup (ProxyUser <$> profiles).
Proof.
  unfold validateUniqueUsernames. case_decide as Hlen.
  - split; [intros _|done].
    destruct profiles as [|p [|q rest]]; simpl in *; [constructor| |lia].
    apply NoDup_singleton.
  - rewrite uniqueUsernames_loop_None. split; [by intros [? _]|].
    intros Hnd. split; [done|]. intros q _. apply lookup_empty.
Qed.

(** X8 — profile selection: with a name, [SelectProfile] returns the first
    profile of that name and fails exactly when there is none; without a
    name it returns the only profile and fails exactly when the number of
    profiles is not one.  A returned profile is always one of the
    configured ones. *)
Theorem SelectProfile_spec (cfg : Config) (selected : string) :
  (∀ p, SelectProfile cfg selected = Ok p ->
        p ∈ Profiles cfg ∧
        (selected ≠ "" ->
         ∃ before after, Profiles cfg = before ++ p :: after ∧
                         Name p = selected ∧
                         Forall (λ q, Name q ≠ selected) before) ∧
        (selected = "" -> Profiles cfg = [p])) ∧
  ((∃ e, SelectProfile cfg selected = Err e) ↔
   (selected ≠ "" ∧ Forall (λ q, Name q ≠ selected) (Profiles cfg)) ∨
   (selected = "" ∧ length (Profiles cfg) ≠ 1%nat)).
Proof.
  assert (∀ l : list Profile,
            match List.find (λ p, bool_decide (Name p = selected)) l with
            | Some p => ∃ before after, l = before ++ p :: after ∧
                                        Name p = selected ∧
                                        Forall (λ q, Name q ≠ selected) before
            | None => Forall (λ q, Name q ≠ selected) l
            end) as Hfind.
  { induction l as [|q l IH]; simpl; [constructor|].
    case_bool_decide as Hq.
    - exists [], l. repeat split; [done|constructor].
    - destruct (List.find _ l) as [p|].
      + destruct IH as (before & after & -> & Hn & Hb).
        exists (q :: before), after. repeat split; [done|by constructor].
      + by constructor. }
  unfold SelectProfile. split.
  - intros p. case_decide as Hsel.
    + specialize (Hfind (Profiles cfg)).
      destruct (List.find _ (Profiles cfg)) as [p'|]; [|done].
      intros [= ->]. destruct Hfind as (before & after & Heq & Hn & Hb).
      split; [rewrite Heq; apply elem_of_app; right; apply list_elem_of_here|].
      split; [intros _; by exists before, after|].
      intros ->. done.
    + destruct (Profiles cfg) as [|p' [|q rest]]; [done| |done].
      intros [= ->]. split; [apply list_elem_of_here|].
      split; [intros H; exfalso; apply H; by destruct (decide (selected = ""))|done].
  - case_decide as Hsel.
    + specialize (Hfind (Profiles cfg)).
      destruct (List.find _ (Profiles cfg)) as [p'|].
      * split; [by intros [e ?]|].
        intros [[_ Hall]|[-> _]]; [|done].
        destruct Hfind as (before & after & Heq & Hn & _).
        rewrite Heq in Hall. apply Forall_app in Hall as [_ Hall].
        apply Forall_cons in Hall as [Hbad _]. done.
      * split; [intros _; by left|intros _; by eexists].
    + assert (selected = "") as -> by (by destruct (decide (selected = ""))).
      destruct (Profiles cfg) as [|p' [|q rest]]; simpl.
      * split; [intros _; right; split; [done|lia]|intros _; by eexists].
      * split; [by intros [e ?]|]. intros [[? _]|[_ ?]]; done.
      * split; [intros _; right; split; [done|lia]|intros _; by eexists].
Qed.

Section LoadProps.
Context {IP : Type} (E : Env IP) (O : OS).

Lemma Load_loop_Ok (baseDir : string) (profiles loaded : list Profile) :
  Load_loop E O baseDir profiles = Ok loaded ->
  loaded = map (λ p, resolveRelativePaths O (applyDefaults p) baseDir) profiles ∧
  Forall (λ p, validateProfile E p = None) loaded.
Proof.
  revert loaded. induction profiles as [|p rest IH]; intros loaded; simpl.
  - intros [= <-]. split; [done|constructor].
  - destruct (validateProfile E _) eqn:Hv; [done|].
    destruct (Load_loop E O baseDir rest) as [rest'|err]; [|done].
    intros [= <-]. destruct (IH rest' eq_refl) as [-> Hall].
    split; [done|]. by constructor.
Qed.

(** X9 — what a loaded configuration guarantees: when [Load] succeeds, the
    configuration has as many profiles as the file, at least one; each is
    the parsed profile with defaults applied and its CA bundle resolved
    against the directory of the file; each passes [validateProfile], so its
    max-conns lies in [1, 200], its listen address and CA bundle are set and
    its proxy user differs from its database user; and the proxy users are
    pairwise distinct. *)
Theorem Load_guarantees (path : string) (cfg : Config) :
  Load E O path = Ok cfg ->
  ∃ raw parsed,
    os_ReadFile O path = Ok raw ∧ yaml_Unmarshal O raw = Ok parsed ∧
    parsed ≠ [] ∧
    Profiles cfg =
      map (λ p, resolveRelativePaths O (applyDefaults p) (filepath_Dir O path)) parsed ∧
    Forall (λ p, validateProfile E p = None ∧
                 1 <= MaxConns p <= 200 ∧
                 ListenAddr p ≠ "" ∧ CABundle p ≠ "" ∧
                 ProxyUser p ≠ RDSDBUser p) (Profiles cfg) ∧
    NoDup (ProxyUser <$> Profiles cfg).
Proof.
  unfold Load. intros HL.
  destruct (os_ReadFile O path) as [raw|err] eqn:Hread; [|done].
  destruct (yaml_Unmarshal O raw) as [parsed|err] eqn:Hyaml; [|done].
  case_decide as Hlen; [done|].
  destruct (Load_loop E O (filepath_Dir O path) parsed) as [loaded|err] eqn:Hloop; [|done].
  destruct (validateUniqueUsernames loaded) eqn:Hu; [done|].
  injection HL as <-. simpl.
  apply Load_loop_Ok in Hloop as [Hmap Hall].
  exists raw, parsed. split; [done|]. split; [done|].
  split; [by destruct parsed|]. split; [done|]. split.
  - rewrite Hmap in Hall |- *. rewrite List.Forall_map in Hall |- *.
    eapply Forall_impl; [exact Hall|]. intros q Hv. simpl in *.
    split; [done|].
    assert (ListenAddr (resolveRelativePaths O (applyDefaults q) (filepath_Dir O path))
            ≠ "") as Hla.
    { assert (∀ p' d, ListenAddr (resolveRelativePaths O p' d) = ListenAddr p') as ->
        by (intros p' d; unfold resolveRelativePaths; by destruct (_ && _)).
      destruct (applyDefaults_spec q) as (-> & _). by case_decide. }
    unfold validateProfile, maxConnsHardLimit in Hv.
    repeat (case_decide; [done|]). repeat split; try done; lia.
  - by apply validateUniqueUsernames_NoDup.
Qed.

End LoadProps.

Section Discovery.
Context {IP : Type} (E : Env IP) (O : OS).



End Discovery.

End ConfigMore.

Lemma SelectProfile_spec_witness :
  config.SelectProfile
    {| config.Profiles := [token.collidingA; token.testProfile; token.collidingB] |} "p1"
  = Ok token.testProfile ∧
  config.Name token.testProfile = "p1".
Proof.
  set (cfg := {| config.Profiles :=
                   [token.collidingA; token.testProfile; token.collidingB] |}).
  assert (config.SelectProfile cfg "p1" = Ok token.testProfile) as H
    by (vm_compute; reflexivity).
  split; [done|].
  destruct (SelectProfile_spec cfg "p1") as [Hok _].
  destruct (Hok _ H) as (_ & Hfirst & _).
  destruct Hfirst as (before & after & _ & Hn & _); [discriminate|]. exact Hn.
Defined.

Lemma Load_guarantees_witness :
  ∃ cfg, config.Load config.testEnv config.testOS "/etc/rds/config.yaml" = Ok cfg ∧
         NoDup (config.ProxyUser <$> config.Profiles cfg) ∧
         (config.MaxConns <$> config.Profiles cfg) = [20] ∧
         (config.CABundle <$> config.Profiles cfg) = ["/etc/rds/certs/ca.pem"].
Proof.
  eexists. split; [vm_compute; reflexivity|].
  split; [|split; reflexivity].
  edestruct (Load_guarantees config.testEnv config.testOS "/etc/rds/config.yaml")
    as (raw & parsed & _ & _ & _ & _ & _ & Hnd); [vm_compute; reflexivity|].
  exact Hnd.
Defined.


(** ** Start-up: listen addresses, selection by name, capacity *)

Section Startup.
Import config cmd.

Lemma uniqueListenAddrs_loop_None (profiles : list Profile) (seen : gmap string string) :
  uniqueListenAddrs_loop profiles seen = None ↔
  NoDup (ListenAddr <$> profiles) ∧
  ∀ p, p ∈ profiles -> seen !! ListenAddr p = None.
Proof.
  revert seen. induction profiles as [|p rest IH]; intros seen; simpl.
  - split; [intros _; split; [constructor|]|done].
    intros p Hin. by apply elem_of_nil in Hin.
  - destruct (seen !! ListenAddr p) as [prev|] eqn:Hp.
    + split; [done|]. intros [_ Hall].
      specialize (Hall p (list_elem_of_here _ _)). congruence.
    + rewrite IH, NoDup_cons. split.
      * intros [Hnd Hall]. split; [split; [|done]|].
        -- intros Hin. apply list_elem_of_fmap in Hin as (q & Hq & Hin).
           specialize (Hall q Hin). rewrite <- Hq, lookup_insert_eq in Hall. done.
        -- intros q [->|Hin]%elem_of_cons; [done|].
           specialize (Hall q Hin).
           destruct (decide (ListenAddr p = ListenAddr q)) as [Heq|Hne].
           ++ rewrite Heq, lookup_insert_eq in Hall. done.
           ++ by rewrite lookup_insert_ne in Hall.
      * intros [[Hnin Hnd] Hall]. split; [done|].
        intros q Hin. rewrite lookup_insert_ne.
        -- apply Hall. by apply elem_of_cons; right.
        -- intros Heq. apply Hnin. rewrite Heq. by apply list_elem_of_fmap_2.
Qed.

(** X11 — unique listen addresses: [validateUniqueListenAddrs] returns nil
    exactly when the listen addresses of the selected profiles are pairwise
    distinct (as strings). *)
Theorem validateUniqueListenAddrs_NoDup (profiles : list Profile) :
  validateUniqueListenAddrs profiles = None ↔ NoDup (ListenAddr <$> profiles).
Proof.
  unfold validateUniqueListenAddrs. rewrite uniqueListenAddrs_loop_None.
  split; [by intros [? _]|]. intros Hnd. split; [done|].
  intros q _. apply lookup_empty.
Qed.

(** The index maps a name to the last profile of that name. *)
Lemma index_by_name_spec (profiles : list Profile) (name : string) :
  match index_by_name profiles !! name with
  | Some p => ∃ before after, profiles = before ++ p :: after ∧ Name p = name ∧
                              Forall (λ q, Name q ≠ name) after
  | None => Forall (λ q, Name q ≠ name) profiles
  end.
Proof.
  unfold index_by_name.
  induction profiles as [|p profiles IH] using rev_ind; [simpl; by rewrite lookup_empty|].
  rewrite fold_left_app. simpl.
  destruct (decide (Name p = name)) as [<-|Hne].
  - rewrite lookup_insert_eq. exists profiles, []. by repeat split.
  - rewrite lookup_insert_ne by done.
    destruct (fold_left _ profiles ∅ !! name) as [q|].
    + destruct IH as (before & after & -> & Hn & Hall).
      exists before, (after ++ [p]). split; [by rewrite <- app_assoc|].
      split; [done|]. apply Forall_app. split; [done|]. by repeat constructor.
    + apply Forall_app. split; [done|]. by repeat constructor.
Qed.

Lemma selectByNames_loop_spec (index : gmap string Profile) (names : list string) :
  ∀ (seen : gset string) (out : list Profile),
    (∀ name p, index !! name = Some p -> Name p = name) ->
    NoDup (Name <$> out) ->
    (∀ name, name ∈ seen ↔ name ∈ Name <$> out) ->
    Forall (λ p, index !! Name p = Some p) out ->
    match selectByNames_loop index names seen out with
    | Ok out' =>
      NoDup (Name <$> out') ∧
      (∀ name, name ∈ Name <$> out' ↔ name ∈ seen ∨ name ∈ names) ∧
      Forall (λ p, index !! Name p = Some p) out'
    | Err _ => ∃ name, name ∈ names ∧ index !! name = None
    end.
Proof.
  induction names as [|name rest IH]; intros seen out Hidx Hnd Hseen Hall; simpl.
  - split; [done|]. split; [|done]. intros name. rewrite <- Hseen.
    split; [by left|]. intros [?|Hin]; [done|]. by apply elem_of_nil in Hin.
  - case_decide as Hin.
    + specialize (IH seen out Hidx Hnd Hseen Hall).
      destruct (selectByNames_loop index rest seen out) as [out'|err].
      * destruct IH as (Hnd' & Hmem & Hall'). split; [done|]. split; [|done].
        intros nm. rewrite Hmem, elem_of_cons. split; [tauto|].
        intros [?|[->|?]]; tauto.
      * destruct IH as (nm & Hnm & Hnone). exists nm. split; [|done].
        by apply elem_of_cons; right.
    + destruct (index !! name) as [p|] eqn:Hp.
      * assert (Name p = name) as Hname by (by apply Hidx).
        specialize (IH ({[name]} ∪ seen) (out ++ [p]) Hidx).
        destruct (selectByNames_loop index rest _ (out ++ [p])) as [out'|err].
        -- destruct IH as (Hnd' & Hmem & Hall').
           ++ rewrite fmap_app. simpl. apply NoDup_app. split; [done|].
              split; [|apply NoDup_singleton].
              intros nm Hnm Hnm'. apply list_elem_of_singleton in Hnm'.
              subst nm. apply Hin, Hseen. by rewrite <- Hname.
           ++ intros nm. rewrite fmap_app, elem_of_app, elem_of_union, <- Hseen.
              simpl. rewrite list_elem_of_singleton, elem_of_singleton, Hname. tauto.
           ++ apply Forall_app. split; [done|]. repeat constructor. by rewrite Hname.
           ++ split; [done|]. split; [|done].
              intros nm. rewrite Hmem, elem_of_union, elem_of_singleton, elem_of_cons.
              tauto.
        -- destruct IH as (nm & Hnm & Hnone).
           ++ rewrite fmap_app. simpl. apply NoDup_app. split; [done|].
              split; [|apply NoDup_singleton].
              intros nm Hnm Hnm'. apply list_elem_of_singleton in Hnm'.
              subst nm. apply Hin, Hseen. by rewrite <- Hname.
           ++ intros nm. rewrite fmap_app, elem_of_app, elem_of_union, <- Hseen.
              simpl. rewrite list_elem_of_singleton, elem_of_singleton, Hname. tauto.
           ++ apply Forall_app. split; [done|]. repeat constructor. by rewrite Hname.
           ++ exists nm. split; [|done]. by apply elem_of_cons; right.
      * exists name. split; [apply list_elem_of_here|done].
Qed.

(** X12 — selection by name: when [selectByNames] succeeds, the selected
    profiles carry pairwise distinct names, exactly the names asked for, and
    each is the last configured profile of its name; it fails only when some
    requested name is not configured.  ([SelectProfile], by contrast,
    returns the first profile of a name.) *)
Theorem selectByNames_spec (cfg : Config) (names : list string) :
  match selectByNames cfg names with
  | Ok out =>
    NoDup (Name <$> out) ∧
    (∀ name, name ∈ Name <$> out ↔ name ∈ names) ∧
    Forall (λ p, ∃ before after,
                   Profiles cfg = before ++ p :: after ∧
                   Forall (λ q, Name q ≠ Name p) after) out
  | Err _ => ∃ name, name ∈ names ∧ Forall (λ q, Name q ≠ name) (Profiles cfg)
  end.
Proof.
  unfold selectByNames.
  pose proof (selectByNames_loop_spec (index_by_name (Profiles cfg)) names ∅ []) as H.
  destruct (selectByNames_loop _ names ∅ []) as [out|err].
  - destruct H as (Hnd & Hmem & Hall).
    + intros name p Hp. pose proof (index_by_name_spec (Profiles cfg) name) as Hs.
      rewrite Hp in Hs. by destruct Hs as (_ & _ & _ & ? & _).
    + constructor.
    + intros name. split; [set_solver|]. intros Hin. by apply elem_of_nil in Hin.
    + constructor.
    + split; [done|]. split.
      { intros name. rewrite Hmem. split; [|by right].
        intros [H|H]; [by apply elem_of_empty in H|done]. }
      eapply Forall_impl; [exact Hall|]. intros p Hp.
      pose proof (index_by_name_spec (Profiles cfg) (Name p)) as Hs.
      rewrite Hp in Hs. destruct Hs as (before & after & Heq & _ & Hafter).
      by exists before, after.
  - destruct H as (name & Hin & Hnone).
    + intros name p Hp. pose proof (index_by_name_spec (Profiles cfg) name) as Hs.
      rewrite Hp in Hs. by destruct Hs as (_ & _ & _ & ? & _).
    + constructor.
    + intros name. split; [set_solver|]. intros Hin. by apply elem_of_nil in Hin.
    + constructor.
    + exists name. split; [done|].
      pose proof (index_by_name_spec (Profiles cfg) name) as Hs.
      by rewrite Hnone in Hs.
Qed.

(** X13 — the capacity a proxy is started with: for a profile that passed
    [validateProfile] and a [--max-conns] flag that [main] accepted, the
    semaphore capacity [proxy.New] sets up is the flag when it is positive
    and the profile's max-conns otherwise, and lies in [1, 200]; the
    fall-back to 200 inside [New] is never taken. *)
Theorem startup_capacity {IP : Type} (E : Env IP) (flag : Z) (p : Profile) :
  validateProfile E p = None ->
  maxConns_flag_accepted flag = true ->
  proxy.maxConns (proxy.New (resolvedMaxConns flag p)) =
    (if decide (flag > 0) then flag else MaxConns p) ∧
  1 <= proxy.maxConns (proxy.New (resolvedMaxConns flag p)) <= 200.
Proof.
  intros Hv Hflag.
  assert (1 <= MaxConns p <= 200) as Hmc.
  { unfold validateProfile, maxConnsHardLimit in Hv.
    repeat (case_decide; [done|]). lia. }
  unfold maxConns_flag_accepted, MaxConnsHardLimit, maxConnsHardLimit in Hflag.
  apply negb_true_iff, bool_decide_eq_false in Hflag.
  unfold resolvedMaxConns, proxy.New. simpl.
  repeat case_decide; lia.
Qed.

End Startup.

Lemma selectByNames_spec_witness :
  cmd.selectByNames {| config.Profiles := [cmd.sameNameA; cmd.sameNameB] |} ["db"; "db"]
    = Ok [cmd.sameNameB] ∧
  config.SelectProfile {| config.Profiles := [cmd.sameNameA; cmd.sameNameB] |} "db"
    = Ok cmd.sameNameA ∧
  NoDup (config.ProxyUser <$> [cmd.sameNameA; cmd.sameNameB]) ∧
  NoDup (config.Name <$> [cmd.sameNameB]).
Proof.
  split; [vm_compute; reflexivity|]. split; [vm_compute; reflexivity|].
  split; [apply NoDup_cons; split; [|apply NoDup_singleton];
          intros H; apply list_elem_of_singleton in H; discriminate|].
  pose proof (selectByNames_spec
                {| config.Profiles := [cmd.sameNameA; cmd.sameNameB] |} ["db"; "db"]) as H.
  assert (cmd.selectByNames {| config.Profiles := [cmd.sameNameA; cmd.sameNameB] |}
            ["db"; "db"] = Ok [cmd.sameNameB]) as Heq by (vm_compute; reflexivity).
  rewrite Heq in H. by destruct H as (Hnd & _).
Defined.

Lemma startup_capacity_witness :
  proxy.maxConns (proxy.New (cmd.resolvedMaxConns 0 token.testProfile)) = 20 ∧
  proxy.maxConns (proxy.New (cmd.resolvedMaxConns 150 token.testProfile)) = 150.
Proof.
  split.
  - apply (startup_capacity config.testEnv 0 token.testProfile); reflexivity.
  - apply (startup_capacity config.testEnv 150 token.testProfile); reflexivity.
Defined.

(** ** Strings: trimming and splitting *)

Section Trimming.
Import proxy cmd.




















Lemma Split_on_nonempty (sep : Ascii.ascii) (s : string) : Split_on sep s ≠ [].
Proof.
  destruct s as [|c s]; [done|]. simpl.
  destruct (Ascii.eqb c sep); [done|]. by destruct (Split_on sep s).
Qed.






End Trimming.



(** ** The backend pool: refill, close, and what Borrow hands out *)

Section PoolMore.
Import proxy.

Lemma closed_fold_Close (q : list PooledConn) (w : Effects) :
  closed (fold_left (λ w c, Close (conn c) w) q w)
  = closed w ++ map (λ c, sock (conn c)) q ∧
  logs (fold_left (λ w c, Close (conn c) w) q w) = logs w ∧
  refills (fold_left (λ w c, Close (conn c) w) q w) = refills w.
Proof.
  revert w. induction q as [|c q IH]; intros w; simpl.
  - by rewrite app_nil_r.
  - destruct (IH (Close (conn c) w)) as (-> & -> & ->). simpl.
    by rewrite <- app_assoc.
Qed.

Lemma fillOne_step (factory : unit -> result ClientConn) (now : Z)
    (st : PoolState) (w : Effects) :
  let '(st', w', calls) := fillOne factory now st w in
  cap st' = cap st ∧ is_closed st' = is_closed st ∧
  ((length (queue st) <= cap st)%nat -> (length (queue st') <= cap st)%nat) ∧
  (is_closed st = true -> st' = st ∧ w' = w ∧ calls = 0%nat) ∧
  (is_closed st = false ->
   calls = 1%nat ∧
   queued st' ++ closed w' ≡ₚ
   queued st ++ closed w ++
   match factory tt with Ok c => [sock c] | Err _ => [] end).
Proof.
  unfold fillOne. destruct (is_closed st) eqn:Hc; [by repeat split|].
  unfold fillOne_finish. destruct (factory tt) as [c|err]; simpl.
  - case_decide as Hlen; simpl.
    + do 2 (split; [done|]). split; [rewrite length_app; simpl; lia|].
      split; [done|]. intros _. split; [done|].
      unfold queued. simpl. rewrite map_app. simpl.
      rewrite <- !app_assoc. apply Permutation_app_head.
      by rewrite Permutation_app_comm.
    + repeat split; done.
  - repeat split; try done. by rewrite !app_nil_r.
Qed.

(** X16 — refilling: a run of refill tasks never puts more sessions in the
    channel than its capacity, and on an open pool every session the
    factory handed out is afterwards either waiting in the channel or
    closed, none is lost; on a closed pool the tasks change nothing.  A new
    pool has capacity at least 1 and a positive refill timeout, and as many
    successful refills as [Start] launches fill it exactly. *)
Theorem fill_all_accounting (made : list (result ClientConn * Z))
    (st : PoolState) (w : Effects) :
  ((length (queue st) <= cap st)%nat ->
   (length (queue (fill_all made st w).1) <= cap st)%nat) ∧
  (is_closed st = false ->
   queued (fill_all made st w).1 ++ closed (fill_all made st w).2
   ≡ₚ queued st ++ closed w ++ created made) ∧
  (is_closed st = true -> fill_all made st w = (st, w)) ∧
  (∀ size maxLife timeout,
     (1 <= cap (NewBackendPool size maxLife timeout))%nat ∧
     0 < refillTimeout (NewBackendPool size maxLife timeout) ∧
     (1 <= size -> cap (NewBackendPool size maxLife timeout) = Z.to_nat size) ∧
     (Forall (λ m, is_Ok m.1) made ->
      length made = Start (NewBackendPool size maxLife timeout) ->
      length (queue (fill_all made (NewBackendPool size maxLife timeout) w).1)
      = cap (NewBackendPool size maxLife timeout))).
Proof.
  assert (∀ made st w,
            cap (fill_all made st w).1 = cap st ∧
            ((length (queue st) <= cap st)%nat ->
             (length (queue (fill_all made st w).1) <= cap st)%nat) ∧
            (is_closed st = false ->
             queued (fill_all made st w).1 ++ closed (fill_all made st w).2
             ≡ₚ queued st ++ closed w ++ created made) ∧
            (is_closed st = true -> fill_all made st w = (st, w))) as Hgen.
  { clear. induction made as [|[m now] made IH]; intros st w; simpl.
    - repeat split; try done. intros _. unfold created. simpl. by rewrite !app_nil_r.
    - pose proof (fillOne_step (λ _, m) now st w) as Hstep.
      destruct (fillOne (λ _, m) now st w) as [[st' w'] calls].
      destruct Hstep as (Hcap & Hcl & Hlen & Hclosed & Hopen).
      destruct (IH st' w') as (Hcap' & Hlen' & Hopen' & Hclosed').
      split; [congruence|]. split; [|split].
      + intros H. rewrite <- Hcap. apply Hlen'. rewrite Hcap. by apply Hlen.
      + intros Hc. destruct (Hopen Hc) as [_ Hperm].
        rewrite Hopen' by congruence.
        unfold created. simpl. fold (created made).
        rewrite (app_assoc (queued st') (closed w')), Hperm.
        rewrite <- !app_assoc. done.
      + intros Hc. destruct (Hclosed Hc) as (-> & -> & _). by apply Hclosed'. }
  destruct (Hgen made st w) as (_ & H1 & H2 & H3).
  split; [done|]. split; [done|]. split; [done|].
  intros size maxLife timeout.
  assert (1 <= cap (NewBackendPool size maxLife timeout))%nat as Hcap1
    by (unfold NewBackendPool; simpl; case_decide; lia).
  split; [done|]. split; [unfold NewBackendPool, second; simpl; case_decide; lia|].
  split; [intros Hs; unfold NewBackendPool; simpl; case_decide; [lia|done]|].
  intros Hall Hlen. unfold Start in Hlen.
  assert (∀ made st w,
            Forall (λ m : result ClientConn * Z, is_Ok m.1) made ->
            is_closed st = false ->
            (length (queue st) + length made <= cap st)%nat ->
            length (queue (fill_all made st w).1)
            = (length (queue st) + length made)%nat) as Hfull.
  { clear. induction made as [|[m now] made IH]; intros st w Hall Hc Hlen; simpl.
    - lia.
    - apply Forall_cons in Hall as [Hm Hall]. simpl in Hm, Hlen.
      destruct m as [c|err]; [|done].
      unfold fillOne, fillOne_finish. rewrite Hc.
      case_decide; [|lia]. simpl.
      rewrite IH; try done; simpl; rewrite ?length_app; simpl; lia. }
  rewrite Hfull; [|done|done|]; unfold NewBackendPool in *; simpl in *; lia.
Qed.

(** X17 — closing the pool: [Close] on an open pool marks it closed,
    cancels the refill scope, empties the channel and closes every session
    that was waiting in it, once each and in order; a second [Close] does
    nothing; and a refill task that starts after [Close] does not call the
    factory and changes nothing. *)
Theorem Close_pool_spec (st : PoolState) (w : Effects) :
  is_closed st = false ->
  is_closed (Close_pool st w).1 = true ∧
  refill_cancelled (Close_pool st w).1 = true ∧
  queue (Close_pool st w).1 = [] ∧
  closed (Close_pool st w).2 = closed w ++ queued st ∧
  Close_pool (Close_pool st w).1 (Close_pool st w).2 = Close_pool st w ∧
  ∀ factory now,
    fillOne factory now (Close_pool st w).1 (Close_pool st w).2
    = ((Close_pool st w).1, (Close_pool st w).2, 0%nat).
Proof.
  intros Hc. unfold Close_pool. rewrite Hc. simpl.
  destruct (closed_fold_Close (queue st) w) as (Hcl & _ & _).
  repeat split; done.
Qed.

(** X18 — a refill overtaken by [Close]: [fillOne] releases the lock after
    its [closed] check, so [Close] can run before the task finishes.  When
    it does and the factory had answered with a session, the task still
    sends the session on the channel: the closed pool then holds a session
    that [Close] did not close and that a further [Close] leaves as it is. *)
Theorem refill_overtaken_by_Close (st : PoolState) (w : Effects)
    (c : ClientConn) (now : Z) :
  is_closed st = false -> (0 < cap st)%nat ->
  let closed_pool := Close_pool st w in
  let after := fillOne_finish (Ok c) now closed_pool.1 closed_pool.2 in
  is_closed after.1 = true ∧
  queue after.1 = [{| conn := c; createdAt := now |}] ∧
  closed after.2 = closed w ++ queued st ∧
  Close_pool after.1 after.2 = after.
Proof.
  intros Hc Hcap. unfold Close_pool. rewrite Hc. simpl.
  unfold fillOne_finish. simpl. case_decide; [|lia]. simpl.
  destruct (closed_fold_Close (queue st) w) as (Hcl & _ & _).
  repeat split; done.
Qed.

(** The loop of [Borrow] closes the stale sessions at the head of the
    outcomes and starts one refill for each. *)
Lemma Borrow_loop_outcome (p : BackendPool) (outcomes : list Select) :
  ∀ (n : Z) (reason : string) (w : Effects) (r : result ClientConn) (w' : Effects),
    Borrow_loop p outcomes n reason w = Some (r, w') ->
    ∃ o, deciding p outcomes = Some o ∧
         closed w' = closed w ++ discarded p outcomes ∧
         match o with
         | ctx_Done err =>
           r = Err err ∧ refills w' = (refills w + length (discarded p outcomes))%nat
         | recv (Some pooled) now =>
           r = Ok (conn pooled) ∧ Ping (conn pooled) = None ∧
           Time_Sub now (createdAt pooled) <= maxLife p ∧
           refills w' = (refills w + length (discarded p outcomes) + 1)%nat
         | recv None _ | default =>
           r = factory p tt ∧ refills w' = (refills w + length (discarded p outcomes))%nat
         end.
Proof.
  assert (∀ n reason w, closed (summary n reason w) = closed w ∧
                        refills (summary n reason w) = refills w) as Hsum.
  { intros n reason w. unfold summary. by case_decide. }
  induction outcomes as [|o rest IH]; intros n reason w r w' HB; [done|].
  simpl in HB |- *. unfold stale, over_age, fails_liveness.
  destruct o as [err|[pooled|] now|]; simpl.
  - injection HB as <- <-. exists (ctx_Done err).
    destruct (Hsum n reason w) as [-> ->]. rewrite app_nil_r. repeat split; lia.
  - destruct (decide (Time_Sub now (createdAt pooled) > maxLife p)) as [Hage|Hage].
    + rewrite bool_decide_eq_true_2 by done. simpl.
      destruct (IH _ _ _ _ _ HB) as (o & Hd & Hcl & Hres).
      exists o. split; [done|]. simpl in Hcl, Hres.
      split; [by rewrite Hcl, <- app_assoc|].
      destruct o as [err|[q|] now'|]; simpl in *;
        repeat split; try tauto; lia.
    + rewrite bool_decide_eq_false_2 by done. simpl.
      destruct (Ping (conn pooled)) as [err|] eqn:HP.
      * rewrite bool_decide_eq_true_2 by done.
        destruct (IH _ _ _ _ _ HB) as (o & Hd & Hcl & Hres).
        exists o. split; [done|]. simpl in Hcl, Hres.
        split; [by rewrite Hcl, <- app_assoc|].
        destruct o as [err'|[q|] now'|]; simpl in *;
          repeat split; try tauto; lia.
      * rewrite bool_decide_eq_false_2 by (intros ?; congruence).
        injection HB as <- <-. exists (recv (Some pooled) now).
        destruct (Hsum n reason (go_fillOne w)) as [-> ->]. simpl.
        rewrite app_nil_r. repeat split; try done; lia.
  - injection HB as <- <-. exists (recv None now).
    destruct (Hsum n reason w) as [-> ->]. rewrite app_nil_r. repeat split; lia.
  - injection HB as <- <-. exists default.
    destruct (Hsum n reason w) as [-> ->]. rewrite app_nil_r. repeat split; lia.
Qed.

(** X19 — what [Borrow] hands out and what it costs: a call that returns
    was decided by the first outcome that is not a stale session.  It
    closes exactly the stale sessions received before it, each once, and
    nothing else; it starts one refill per closed session, plus one when it
    returns a pooled session.  A pooled session it returns passed the
    liveness check and is no older than the maximum age; a done context
    yields the context's error; a nil item or an empty channel yields
    whatever the factory returns. *)
Theorem Borrow_outcome (p : BackendPool) (outcomes : list Select)
    (r : result ClientConn) (w : Effects) :
  Borrow p outcomes = Some (r, w) ->
  ∃ o, deciding p outcomes = Some o ∧
       closed w = discarded p outcomes ∧
       match o with
       | ctx_Done err =>
         r = Err err ∧ refills w = length (discarded p outcomes)
       | recv (Some pooled) now =>
         r = Ok (conn pooled) ∧ Ping (conn pooled) = None ∧
         Time_Sub now (createdAt pooled) <= maxLife p ∧
         refills w = (length (discarded p outcomes) + 1)%nat
       | recv None _ | default =>
         r = factory p tt ∧ refills w = length (discarded p outcomes)
       end.
Proof.
  intros HB. destruct (Borrow_loop_outcome p outcomes 0 "" no_effects r w HB)
    as (o & Hd & Hcl & Hres).
  exists o. split; [done|]. split; [done|].
  destruct o as [err|[q|] now|]; simpl in *; tauto.
Qed.

End PoolMore.

Lemma fill_all_accounting_witness :
  proxy.queued (proxy.fill_all proxy.threeFills (proxy.NewBackendPool 2 60 0)
                  proxy.no_effects).1 = [21%nat; 22%nat] ∧
  proxy.closed (proxy.fill_all proxy.threeFills (proxy.NewBackendPool 2 60 0)
                  proxy.no_effects).2 = [23%nat] ∧
  (length (proxy.queue (proxy.fill_all proxy.threeFills (proxy.NewBackendPool 2 60 0)
                          proxy.no_effects).1) <= 2)%nat.
Proof.
  split; [vm_compute; reflexivity|]. split; [vm_compute; reflexivity|].
  destruct (fill_all_accounting proxy.threeFills (proxy.NewBackendPool 2 60 0)
              proxy.no_effects) as (H & _).
  apply H. simpl. lia.
Defined.

Lemma Close_pool_spec_witness :
  proxy.closed
    (proxy.Close_pool
       (proxy.fill_all proxy.threeFills (proxy.NewBackendPool 2 60 0) proxy.no_effects).1
       proxy.no_effects).2 = [21%nat; 22%nat].
Proof.
  edestruct (Close_pool_spec
               (proxy.fill_all proxy.threeFills (proxy.NewBackendPool 2 60 0)
                  proxy.no_effects).1 proxy.no_effects) as (_ & _ & _ & H & _);
    [reflexivity|].
  rewrite H. vm_compute. reflexivity.
Defined.

Lemma refill_overtaken_by_Close_witness :
  proxy.queue
    (proxy.fillOne_finish (Ok {| proxy.sock := 24; proxy.Ping := None |}) 400
       (proxy.Close_pool (proxy.NewBackendPool 2 60 0) proxy.no_effects).1
       (proxy.Close_pool (proxy.NewBackendPool 2 60 0) proxy.no_effects).2).1
  = [{| proxy.conn := {| proxy.sock := 24; proxy.Ping := None |};
        proxy.createdAt := 400 |}].
Proof.
  apply (refill_overtaken_by_Close (proxy.NewBackendPool 2 60 0) proxy.no_effects).
  - reflexivity.
  - simpl. lia.
Defined.

Lemma Borrow_outcome_witness :
  ∃ w, proxy.Borrow proxy.brokenPool proxy.brokenOutcomes
         = Some (Ok {| proxy.sock := 7; proxy.Ping := None |}, w) ∧
       proxy.closed w = [3%nat] ∧ proxy.refills w = 1%nat.
Proof.
  eexists. split; [vm_compute; reflexivity|].
  edestruct (Borrow_outcome proxy.brokenPool proxy.brokenOutcomes)
    as (o & Hd & Hcl & Hres); [vm_compute; reflexivity|].
  vm_compute in Hd. injection Hd as <-. destruct Hres as [_ Hr].
  split; [exact Hcl|exact Hr].
Defined.

Section ProxyMore.
Import proxy.

Lemma length_bytes_of_string (s : string) :
  length (bytes_of_string s) = String.length s.
Proof.
  unfold bytes_of_string. rewrite length_map.
  induction s as [|c s IH]; simpl; [done|by rewrite IH].
Qed.

Lemma bytes_of_string_range (s : string) :
  Forall (λ b, 0 <= b < 256) (bytes_of_string s).
Proof.
  unfold bytes_of_string. apply Forall_forall. intros b Hb.
  apply list_elem_of_fmap in Hb as (c & -> & _).
  pose proof (Ascii.N_ascii_bounded c). lia.
Qed.

(** X20 — the ERR packet: for a 16-bit [code] and a one-byte header the
    data handed to [WritePacket] is 13 bytes longer than the message, starts
    with the four zero bytes left for the packet header, carries the header
    byte, then [code] as two bytes, low byte first, so that the code can be
    read back, then the marker and SQL state and the message; every entry
    is a byte; and an empty message is sent as the default text. *)
Theorem writeErrPacket_layout (ERR_HEADER code : Z) (msg : string) :
  0 <= ERR_HEADER < 256 -> 0 <= code < 65536 ->
  let data := writeErrPacket ERR_HEADER code msg in
  let text := if decide (msg = "") then "backend unavailable" else msg in
  length data = (13 + String.length text)%nat ∧
  take 4 data = [0; 0; 0; 0] ∧
  data !! 4%nat = Some ERR_HEADER ∧
  (∃ lo hi, data !! 5%nat = Some lo ∧ data !! 6%nat = Some hi ∧
            0 <= lo < 256 ∧ 0 <= hi < 256 ∧ lo + 256 * hi = code) ∧
  drop 7 data = bytes_of_string "#HY000" ++ bytes_of_string text ∧
  Forall (λ b, 0 <= b < 256) data ∧
  writeErrPacket ERR_HEADER code "" = writeErrPacket ERR_HEADER code "backend unavailable".
Proof.
  intros HH Hcode. unfold writeErrPacket.
  set (text := if decide (msg = "") then "backend unavailable" else msg).
  simpl. repeat split.
  - rewrite length_bytes_of_string. lia.
  - exists (code mod 256), ((code / 256) mod 256).
    repeat split; try done; try (apply Z.mod_pos_bound; lia).
    rewrite (Z.mod_small (code / 256)).
    + pose proof (Z.div_mod code 256). lia.
    + split; [apply Z.div_pos; lia|apply Z.div_lt_upper_bound; lia].
  - repeat (apply Forall_cons; split; [try lia; try (apply Z.mod_pos_bound; lia)|]).
    apply bytes_of_string_range.
Qed.

(** X21 — which error [pipe] reports: none exactly when each direction
    ended without error or with a benign close error; otherwise the error
    of the direction that finished first if that one is not benign, else
    the other direction's.  A benign close error is never returned, and the
    two byte counts always add up to the bytes copied in both directions. *)
Theorem pipe_error_priority (run : PipeRun) :
  let first := match finishes_first run with
               | Upstream => upstream run | Downstream => downstream run end in
  let second := match finishes_first run with
                | Upstream => downstream run | Downstream => upstream run end in
  let harmless (r : copyResult) := err r = None ∨ isConnCloseErr (err r) = true in
  let e := (pipe run).2.2 in
  (e = None ↔ harmless first ∧ harmless second) ∧
  (¬ harmless first -> e = err first) ∧
  (harmless first -> ¬ harmless second -> e = err second) ∧
  isConnCloseErr e = false ∧
  (pipe run).2.1.1 + (pipe run).2.1.2 = n (upstream run) + n (downstream run).
Proof.
  assert (∀ r : copyResult,
            (bool_decide (err r ≠ None) && negb (isConnCloseErr (err r)) = true
             ∧ err r ≠ None ∧ isConnCloseErr (err r) = false) ∨
            (bool_decide (err r ≠ None) && negb (isConnCloseErr (err r)) = false
             ∧ (err r = None ∨ isConnCloseErr (err r) = true))) as Hcase.
  { intros r. destruct (err r) as [x|]; [|right; split; [done|by left]].
    destruct (isConnCloseErr (Some x)) eqn:Hc.
    - right. split; [by rewrite andb_false_r|by right].
    - left. by rewrite bool_decide_eq_true_2. }
  assert ((pipe run).2.1.1 + (pipe run).2.1.2 = n (upstream run) + n (downstream run))
    as Hsum.
  { rewrite pipe_counts. destruct (finishes_first run); simpl; lia. }
  assert ((pipe run).2.2 =
          let first := match finishes_first run with
                       | Upstream => upstream run | Downstream => downstream run end in
          let second := match finishes_first run with
                        | Upstream => downstream run | Downstream => upstream run end in
          if bool_decide (err first ≠ None) && negb (isConnCloseErr (err first))
          then err first
          else if bool_decide (err second ≠ None) && negb (isConnCloseErr (err second))
               then err second else None) as He.
  { unfold pipe. destruct (finishes_first run); simpl;
      repeat (destruct (_ && _)); reflexivity. }
  cbv zeta in *. rewrite He. clear He.
  destruct (finishes_first run);
    (destruct (Hcase (upstream run)) as [(Hu & Hn & Hc)|(Hu & Hh)];
     destruct (Hcase (downstream run)) as [(Hd & Hn' & Hc')|(Hd & Hh')];
     rewrite ?Hu, ?Hd; simpl;
     repeat split; try exact Hsum; try done; intuition congruence).
Qed.



End ProxyMore.

Section Backend.
Import config token proxy.
Context {Provider : Type} (E : Env Provider).

(** X23 — [NewConn] and the token cache: when [Get] fails no connection is
    attempted and the error comes back as [Get] made it; otherwise exactly
    one connection is attempted, to the joined host and port of the profile
    as the profile's database user, with a password that is the value of
    the token the cache now holds under the profile's key; a failed attempt
    is reported with the prefix and keeps the cause for [errors.Is].  The
    cache is left as [Get] left it. *)
Theorem NewConn_spec (connect : Dial -> result ClientConn) (profile : Profile)
    (s : State Provider) :
  let out := NewConn E connect profile s in
  out.1.2 = (Get E profile s).2 ∧
  (∀ err, (Get E profile s).1 = Err err -> out.1.1 = Err err ∧ out.2 = []) ∧
  (∀ ct, (Get E profile s).1 = Ok ct ->
     ∃ d, out.2 = [d] ∧
          dial_addr d = JoinHostPort E (RDSHost profile) (Itoa (RDSPort profile)) ∧
          dial_user d = RDSDBUser profile ∧ dial_db d = DefaultDB profile ∧
          dial_password d = Value ct ∧
          entries out.1.2 !! cacheKey profile = Some ct ∧
          match connect d with
          | Ok c => out.1.1 = Ok c
          | Err cause =>
            ∃ e, out.1.1 = Err e ∧ Error e = "connect backend: " +:+ Error cause ∧
                 ∀ target, errors_Is e target = errors_Is cause target
          end).
Proof.
  intros out. subst out. unfold NewConn.
  destruct (Get E profile s) as [[ct|err] s1] eqn:HG; simpl.
  - split; [by destruct (connect _)|]. split; [done|].
    intros ? [= <-]. eexists. split; [by destruct (connect _)|].
    repeat split.
    + destruct (connect _); simpl; by apply (Get_Ok_stored E profile s).
    + destruct (connect _) as [c|cause]; simpl; [done|].
      eexists. split; [done|]. split; done.
  - split; [done|]. split; [by intros ? [= <-]|]. done.
Qed.

End Backend.

Lemma writeErrPacket_layout_witness :
  proxy.writeErrPacket 255 1040 "backend unavailable" !! 5%nat = Some 16 ∧
  proxy.writeErrPacket 255 1040 "backend unavailable" !! 6%nat = Some 4 ∧
  length (proxy.writeErrPacket 255 1040 "") = 32%nat.
Proof.
  split; [vm_compute; reflexivity|]. split; [vm_compute; reflexivity|].
  destruct (writeErrPacket_layout 255 1040 "") as (H & _); [lia|lia|].
  exact H.
Defined.

Lemma pipe_error_priority_witness :
  (proxy.pipe
     {| proxy.finishes_first := proxy.Upstream;
        proxy.upstream := {| proxy.n := 3; proxy.err := Some (Sentinel io_EOF) |};
        proxy.downstream :=
          {| proxy.n := 5; proxy.err := Some (errors_New "i/o timeout") |} |}).2.2
  = Some (errors_New "i/o timeout").
Proof.
  destruct (pipe_error_priority
              {| proxy.finishes_first := proxy.Upstream;
                 proxy.upstream := {| proxy.n := 3; proxy.err := Some (Sentinel io_EOF) |};
                 proxy.downstream :=
                   {| proxy.n := 5; proxy.err := Some (errors_New "i/o timeout") |} |})
    as (_ & _ & H & _).
  apply H.
  - right. vm_compute. reflexivity.
  - intros [H1|H1]; [discriminate|]. vm_compute in H1. discriminate.
Defined.


Lemma NewConn_spec_witness :
  (proxy.NewConn token.testEnv (λ _, Err (Sentinel io_EOF)) token.testProfile
     (token.New (5 * token.minute) (15 * token.minute) 0 0 0)).2
  = [{| proxy.dial_addr := "db.example:3306"; proxy.dial_user := "db_user_1";
        proxy.dial_password := "token-call-1"; proxy.dial_db := EmptyString |}] ∧
  (proxy.NewConn token.failingLoaderEnv (λ _, Err (Sentinel io_EOF)) token.testProfile
     (token.New (5 * token.minute) (15 * token.minute) 0 0 0)).2 = [].
Proof.
  split; [vm_compute; reflexivity|].
  destruct (NewConn_spec token.failingLoaderEnv (λ _, Err (Sentinel io_EOF))
              token.testProfile (token.New (5 * token.minute) (15 * token.minute) 0 0 0))
    as (_ & H & _).
  apply (H (Wrap "load aws config: no credentials" (errors_New "no credentials"))).
  vm_compute. reflexivity.
Defined.
